(** * Notification delivery engine

    A shallow embedding of the notification model (the Notification
    schema, second module of backend/models/Podcast.js: [markAsSent],
    [markAsFailed], [markAsRead], [retry], [findPending]) and of the
    dispatching service (backend/services/notificationService.js: the four
    channel senders, [sendNotification], [processPendingNotifications]).

    A mongoose document is a mutable object that is written back with
    [save()]; the embedding threads a [World] holding the in-memory document,
    the last persisted copy of it and a ghost trace of the calls made,
    through a small state-and-exception monad.  Everything that the code
    obtains from outside (the clock, the outcome of each [save()], of the
    Telegram call, of the user lookup and of the SMTP call, and the order in
    which the concurrently started senders complete) is read from an
    explicit environment [Env]. *)

From stdpp Require Import base decidable option list numbers strings sorting relations pretty.
From Stdlib Require Import ZArith Lia.

#[local] Open Scope string_scope.
#[local] Open Scope list_scope.

(** ** Data model *)

(** [status]: enum ['pending', 'sending', 'sent', 'failed', 'cancelled']. *)
Module Status.
Inductive t := pending | sending | sent | failed | cancelled.
#[global] Instance eq_dec : EqDecision t.
Proof. solve_decision. Defined.
End Status.

(** [priority]: enum ['low', 'normal', 'high', 'urgent'].  The field is a
    String in the schema; [str] is the stored value, which is what the
    database compares when it sorts on the field. *)
Module Priority.
Inductive t := low | normal | high | urgent.
#[global] Instance eq_dec : EqDecision t.
Proof. solve_decision. Defined.

Definition str (p : t) : string :=
  match p with
  | low => "low"
  | normal => "normal"
  | high => "high"
  | urgent => "urgent"
  end.

(** The urgency the names stand for: urgent > high > normal > low. *)
Definition rank (p : t) : nat :=
  match p with
  | low => 0
  | normal => 1
  | high => 2
  | urgent => 3
  end.
End Priority.

(** The keys of [channels] and [deliveryStatus]. *)
Module Channel.
Inductive t := telegram | email | push | inApp.
#[global] Instance eq_dec : EqDecision t.
Proof. solve_decision. Defined.

(** [Object.keys] of either object, in schema order. *)
Definition keys : list t := [telegram; email; push; inApp].
End Channel.

(** An object with one value per channel key, as the schema fixes it. *)
Record PerChannel (A : Type) := mkPerChannel {
  telegram : A;
  email : A;
  push : A;
  inApp : A
}.
Arguments mkPerChannel {A}.
Arguments telegram {A}.
Arguments email {A}.
Arguments push {A}.
Arguments inApp {A}.

(** [obj[key]] *)
#[global] Instance perChannel_lookup {A} : LookupTotal Channel.t A (PerChannel A) :=
  fun key obj =>
    match key with
    | Channel.telegram => telegram obj
    | Channel.email => email obj
    | Channel.push => push obj
    | Channel.inApp => inApp obj
    end.

(** [obj[key] = v] *)
#[global] Instance perChannel_insert {A} : Insert Channel.t A (PerChannel A) :=
  fun key v obj =>
    match key with
    | Channel.telegram => mkPerChannel v (email obj) (push obj) (inApp obj)
    | Channel.email => mkPerChannel (telegram obj) v (push obj) (inApp obj)
    | Channel.push => mkPerChannel (telegram obj) (email obj) v (inApp obj)
    | Channel.inApp => mkPerChannel (telegram obj) (email obj) (push obj) v
    end.

(** One entry of [deliveryStatus].  Dates are milliseconds as [Z]; an absent
    field is [None].  In the schema [readAt] is a path of the inApp entry
    only and [error] a path of the other three: [chReadAt] is written for
    inApp only (see [markAsRead]) and [error] never for inApp (see
    [recordError]), so each stays [None] where the schema has no such
    path. *)
Record DeliveryEntry := mkEntry {
  sent : bool;
  chSentAt : option Z;
  error : option string;
  chReadAt : option Z
}.

(** The fields of a notification document that the methods read or write.
    [title], [content], [data], [type] and [metadata] only feed the message
    text and are left out. *)
Record Notification := mkNotification {
  id : nat;
  userId : nat;
  channels : PerChannel bool;
  deliveryStatus : PerChannel DeliveryEntry;
  priority : Priority.t;
  status : Status.t;
  scheduledAt : Z;
  sentAt : option Z;
  readAt : option Z;
  retryCount : Z;
  maxRetries : Z
}.

Definition set_sent (b : bool) (e : DeliveryEntry) : DeliveryEntry :=
  mkEntry b (chSentAt e) (error e) (chReadAt e).
Definition set_chSentAt (t : Z) (e : DeliveryEntry) : DeliveryEntry :=
  mkEntry (sent e) (Some t) (error e) (chReadAt e).
Definition set_error (msg : string) (e : DeliveryEntry) : DeliveryEntry :=
  mkEntry (sent e) (chSentAt e) (Some msg) (chReadAt e).
Definition set_chReadAt (t : Z) (e : DeliveryEntry) : DeliveryEntry :=
  mkEntry (sent e) (chSentAt e) (error e) (Some t).

(** [deliveryStatus[channel].error = error].  The telegram, email and push
    entries have an [error] path; the inApp entry has none, and the
    assignment leaves nothing in the document. *)
Definition recordError (channel : Channel.t) (msg : string) (e : DeliveryEntry)
    : DeliveryEntry :=
  match channel with
  | Channel.inApp => e
  | _ => set_error msg e
  end.

Definition set_deliveryStatus (ds : PerChannel DeliveryEntry) (n : Notification) : Notification :=
  mkNotification (id n) (userId n) (channels n) ds (priority n) (status n)
    (scheduledAt n) (sentAt n) (readAt n) (retryCount n) (maxRetries n).
Definition set_status (s : Status.t) (n : Notification) : Notification :=
  mkNotification (id n) (userId n) (channels n) (deliveryStatus n) (priority n) s
    (scheduledAt n) (sentAt n) (readAt n) (retryCount n) (maxRetries n).
Definition set_scheduledAt (t : Z) (n : Notification) : Notification :=
  mkNotification (id n) (userId n) (channels n) (deliveryStatus n) (priority n) (status n)
    t (sentAt n) (readAt n) (retryCount n) (maxRetries n).
Definition set_sentAt (t : Z) (n : Notification) : Notification :=
  mkNotification (id n) (userId n) (channels n) (deliveryStatus n) (priority n) (status n)
    (scheduledAt n) (Some t) (readAt n) (retryCount n) (maxRetries n).
Definition set_readAt (t : Z) (n : Notification) : Notification :=
  mkNotification (id n) (userId n) (channels n) (deliveryStatus n) (priority n) (status n)
    (scheduledAt n) (sentAt n) (Some t) (retryCount n) (maxRetries n).
Definition set_retryCount (k : Z) (n : Notification) : Notification :=
  mkNotification (id n) (userId n) (channels n) (deliveryStatus n) (priority n) (status n)
    (scheduledAt n) (sentAt n) (readAt n) k (maxRetries n).

(** Schema defaults: every [deliveryStatus] entry starts unsent, [status] is
    'pending', [retryCount] is 0.  The caller chooses the rest. *)
Definition defaultEntry : DeliveryEntry := mkEntry false None None None.

Definition newNotification (id userId : nat) (chans : PerChannel bool)
    (prio : Priority.t) (createdAt : Z) (maxRetries : Z) : Notification :=
  mkNotification id userId chans
    (mkPerChannel defaultEntry defaultEntry defaultEntry defaultEntry)
    prio Status.pending createdAt None None 0 maxRetries.

(** Virtual fields. *)
Definition isRead (n : Notification) : bool := bool_decide (is_Some (readAt n)).
Definition isDelivered (n : Notification) : bool := bool_decide (status n = Status.sent).
Definition canRetry (n : Notification) : bool :=
  bool_decide (status n = Status.failed) && bool_decide (retryCount n < maxRetries n)%Z.

(** ** Environment and effects *)

Inductive Res (A : Type) := Ok (a : A) | Throw (msg : string).
Arguments Ok {A}.
Arguments Throw {A}.

(** The part of a user profile that the email sender reads. *)
Record User := mkUser {
  userEmail : string;
  notifications_email : bool
}.

Record Env := mkEnv {
  (** the value of [new Date()] *)
  clock : Z;
  (** whether the k-th [save()] of the run resolves *)
  saveOk : nat -> bool;
  (** [telegramBot.api.sendMessage]: [None] resolves, [Some m] rejects with message [m] *)
  telegramSend : option string;
  (** [User.findById] *)
  findById : Res (option User);
  (** [emailTransporter.sendMail] *)
  sendMail : option string;
  (** the order in which the started senders complete, as insertion
      positions (see [permute]); [[]] is the order in which they were started *)
  settle : list nat
}.

(** Ghost trace: which sender was started and which model method was
    called, in order. *)
Inductive Event :=
| SenderCalled (c : Channel.t)
| MarkedSent (c : Channel.t)
| MarkedFailed (c : Channel.t) (msg : string).

Record World := mkWorld {
  doc : Notification;
  stored : Notification;
  saves : nat;
  trace : list Event
}.

(** A document as loaded from the store. *)
Definition load (n : Notification) : World := mkWorld n n 0 [].

Definition M (A : Type) : Type := World -> Res A * World.

Definition ret {A} (a : A) : M A := fun w => (Ok a, w).
Definition throw {A} (msg : string) : M A := fun w => (Throw msg, w).
Definition bind {A B} (m : M A) (f : A -> M B) : M B :=
  fun w => match m w with
           | (Ok a, w') => f a w'
           | (Throw msg, w') => (Throw msg, w')
           end.
(** [try { m } catch (error) { h(error.message) }] *)
Definition tryCatch {A} (m : M A) (h : string -> M A) : M A :=
  fun w => match m w with
           | (Ok a, w') => (Ok a, w')
           | (Throw msg, w') => h msg w'
           end.

#[global] Instance M_ret : MRet M := @ret.
#[global] Instance M_bind : MBind M := fun A B f m => bind m f.

Definition getDoc : M Notification := fun w => (Ok (doc w), w).
(** An assignment to a field of the document. *)
Definition assign (f : Notification -> Notification) : M unit :=
  fun w => (Ok tt, mkWorld (f (doc w)) (stored w) (saves w) (trace w)).
Definition emit (e : list Event) : M unit :=
  fun w => (Ok tt, mkWorld (doc w) (stored w) (saves w) (trace w ++ e)).
(** An external call that resolves or rejects. *)
Definition external (r : option string) : M unit :=
  match r with
  | None => ret tt
  | Some msg => throw msg
  end.
Definition lift {A} (r : Res A) : M A := fun w => (r, w).

Definition saveError : string := "save failed".

(** ** The model methods (models/Notification.js) and the channel senders *)

Section Service.
Variable env : Env.

(** The schema's pre-save hook: when [status] was modified and is now
    'sent', [sentAt] is stamped.  "Modified" is read as "differs from the
    persisted value". *)
Definition preSave (persisted d : Notification) : Notification :=
  if bool_decide (status d <> status persisted) && bool_decide (status d = Status.sent)
  then set_sentAt (clock env) d
  else d.

(** [this.save()]: runs the hook, then writes the document back or rejects,
    as the environment says for this call. *)
Definition save : M unit :=
  fun w =>
    let d := preSave (stored w) (doc w) in
    if saveOk env (saves w)
    then (Ok tt, mkWorld d d (S (saves w)) (trace w))
    else (Throw saveError, mkWorld d (stored w) (S (saves w)) (trace w)).

(** The two key lists that [markAsSent] compares by length. *)
Definition allChannels (d : Notification) : list Channel.t :=
  filter (fun key => channels d !!! key = true) Channel.keys.
Definition sentChannels (d : Notification) : list Channel.t :=
  filter (fun key => sent (deliveryStatus d !!! key) = true) Channel.keys.

(** [markAsSent(channel)] and [markAsFailed(channel, error)].  Their guard
    [if (this.deliveryStatus[channel])] holds for each of the four keys, the
    entries being part of the schema. *)
Definition markAsSent (channel : Channel.t) : M unit :=
  emit [MarkedSent channel];;
  assign (fun d =>
    set_deliveryStatus
      (<[channel := set_chSentAt (clock env) (set_sent true (deliveryStatus d !!! channel))]>
         (deliveryStatus d)) d);;
  d ← getDoc;
  (if decide (length (allChannels d) = length (sentChannels d))
   then assign (fun d => set_sentAt (clock env) (set_status Status.sent d))
   else mret tt);;
  save.

Definition markAsFailed (channel : Channel.t) (msg : string) : M unit :=
  emit [MarkedFailed channel msg];;
  assign (fun d =>
    set_deliveryStatus
      (<[channel := recordError channel msg (deliveryStatus d !!! channel)]>
         (deliveryStatus d)) d);;
  assign (fun d => set_retryCount (retryCount d + 1) d);;
  d ← getDoc;
  (if decide (retryCount d >= maxRetries d)%Z
   then assign (set_status Status.failed)
   else assign (set_status Status.pending));;
  save.

Definition markAsRead : M unit :=
  assign (set_readAt (clock env));;
  assign (fun d =>
    set_deliveryStatus
      (<[Channel.inApp := set_chReadAt (clock env) (deliveryStatus d !!! Channel.inApp)]>
         (deliveryStatus d)) d);;
  save.

Definition retry : M unit :=
  assign (set_status Status.pending);;
  assign (set_scheduledAt (clock env));;
  save.

Definition sendTelegramNotification : M bool :=
  tryCatch
    (external (telegramSend env);;
     markAsSent Channel.telegram;;
     mret true)
    (fun msg => markAsFailed Channel.telegram msg;; mret false).

Definition sendEmailNotification : M bool :=
  tryCatch
    (user ← lift (findById env);
     match user with
     | None => mret false
     | Some u =>
         if negb (notifications_email u) then mret false
         else
           external (sendMail env);;
           markAsSent Channel.email;;
           mret true
     end)
    (fun msg => markAsFailed Channel.email msg;; mret false).

Definition sendPushNotification : M bool :=
  tryCatch
    (markAsSent Channel.push;; mret true)
    (fun msg => markAsFailed Channel.push msg;; mret false).

Definition sendInAppNotification : M bool :=
  tryCatch
    (markAsSent Channel.inApp;; mret true)
    (fun msg => markAsFailed Channel.inApp msg;; mret false).

Definition sender (c : Channel.t) : M bool :=
  match c with
  | Channel.telegram => sendTelegramNotification
  | Channel.email => sendEmailNotification
  | Channel.push => sendPushNotification
  | Channel.inApp => sendInAppNotification
  end.

(** ** The dispatcher (services/notificationService.js) *)

(** [insertAt k x l] puts [x] before position [k] of [l] (at the end when
    [l] is shorter). *)
Fixpoint insertAt {A} (k : nat) (x : A) (l : list A) : list A :=
  match k, l with
  | S k', y :: l' => y :: insertAt k' x l'
  | _, _ => x :: l
  end.

(** The completion order of the started senders: each element is inserted
    into the order of those started after it at the position the code gives;
    an exhausted code keeps the starting order. *)
Fixpoint permute {A} (code : list nat) (l : list A) : list A :=
  match l with
  | [] => []
  | x :: l' =>
      match code with
      | [] => x :: l'
      | k :: code' => insertAt k x (permute code' l')
      end
  end.

(** [await Promise.allSettled(promises)]: every started sender runs to its
    end; results and rejections are dropped. *)
Fixpoint allSettled (promises : list (M bool)) : M unit :=
  match promises with
  | [] => mret tt
  | p :: rest => fun w => allSettled rest (snd (p w))
  end.

(** The senders started by [sendNotification], in the order of its four
    [if (notification.channels.X)] tests. *)
Definition started (d : Notification) : list Channel.t :=
  filter (fun c => channels d !!! c = true) Channel.keys.

(** The four senders are started one after the other and awaited together.
    The round is modelled as the started senders run to their end one at a
    time, in the completion order that the environment gives.  This is a
    run in which no sender calls [save()] while the [save()] of another
    sender is in flight (mongoose rejects a [save()] that overlaps another
    one of the same document: to the sender that called it, it is a
    [save()] that did not resolve). *)
Definition sendNotification : M bool :=
  tryCatch
    (assign (set_status Status.sending);;
     save;;
     d ← getDoc;
     emit (SenderCalled <$> started d);;
     allSettled (sender <$> permute (settle env) (started d));;
     mret true)
    (fun _ =>
       assign (set_status Status.failed);;
       save;;
       mret false).

End Service.

(** ** The store query and the sweep *)

(** The query of [findPending]: [status: 'pending', scheduledAt: {$lte: now}]. *)
Definition due (now : Z) (n : Notification) : Prop :=
  status n = Status.pending /\ (scheduledAt n <= now)%Z.

#[global] Instance due_dec now n : Decision (due now n).
Proof. unfold due. apply _. Defined.

(** The sort of [findPending]: [{ priority: -1, scheduledAt: 1 }].  The
    priority is compared as the stored string, descending; equal priorities
    are ordered by [scheduledAt], ascending.  [sortBefore a b] says that [a]
    may stand before [b]. *)
Definition sortBefore (a b : Notification) : Prop :=
  match String.compare (Priority.str (priority a)) (Priority.str (priority b)) with
  | Gt => True
  | Lt => False
  | Eq => (scheduledAt a <= scheduledAt b)%Z
  end.

#[global] Instance sortBefore_dec a b : Decision (sortBefore a b).
Proof. unfold sortBefore. destruct (String.compare _ _); apply _. Defined.

Definition findPending (now : Z) (coll : list Notification) : list Notification :=
  merge_sort sortBefore (filter (due now) coll).

(** What a sweep did: every notification it handed to the dispatcher, in
    order, with the world that dispatch ended in, and the message it logged
    if an exception ended it. *)
Record Sweep := mkSweep {
  dispatched : list (Notification * World);
  logged : option string
}.

(** The [for ... of] loop of [processPendingNotifications]; [envs k] is the
    environment met by the k-th dispatch.  An exception out of
    [sendNotification] leaves the loop. *)
Fixpoint sweepLoop (envs : nat -> Env) (k : nat) (l : list Notification) : Sweep :=
  match l with
  | [] => mkSweep [] None
  | n :: rest =>
      match sendNotification (envs k) (load n) with
      | (Ok _, w) =>
          let s := sweepLoop envs (S k) rest in
          mkSweep ((n, w) :: dispatched s) (logged s)
      | (Throw msg, w) => mkSweep [(n, w)] (Some msg)
      end
  end.

(** [findErr] is the rejection of the [findPending] query, if any. *)
Definition processPendingNotifications (findErr : option string) (envs : nat -> Env)
    (now : Z) (coll : list Notification) : Sweep :=
  match findErr with
  | Some msg => mkSweep [] (Some msg)
  | None => sweepLoop envs 0 (findPending now coll)
  end.

(** ** Vocabulary of the statements *)

(** The document [markAsSent] and [markAsFailed] leave in memory when they
    reach their [save()]. *)
Definition sentDoc (now : Z) (channel : Channel.t) (d : Notification) : Notification :=
  let d1 :=
    set_deliveryStatus
      (<[channel := set_chSentAt now (set_sent true (deliveryStatus d !!! channel))]>
         (deliveryStatus d)) d in
  if decide (length (allChannels d1) = length (sentChannels d1))
  then set_sentAt now (set_status Status.sent d1)
  else d1.

Definition failedDoc (channel : Channel.t) (msg : string) (d : Notification) : Notification :=
  let d1 :=
    set_retryCount (retryCount d + 1)
      (set_deliveryStatus
         (<[channel := recordError channel msg (deliveryStatus d !!! channel)]>
            (deliveryStatus d)) d) in
  if decide (retryCount d1 >= maxRetries d1)%Z
  then set_status Status.failed d1
  else set_status Status.pending d1.

(** The senders started, and the number of failures recorded, in a trace. *)
Definition senderCalls (tr : list Event) : list Channel.t :=
  omap (fun e => match e with SenderCalled c => Some c | _ => None end) tr.

Definition failures (tr : list Event) : nat :=
  length (omap (fun e => match e with MarkedFailed c _ => Some c | _ => None end) tr).

(** The channels for which [markAsSent] or [markAsFailed] was called, in a
    trace. *)
Definition marked (tr : list Event) : list Channel.t :=
  omap (fun e => match e with
                 | MarkedSent c | MarkedFailed c _ => Some c
                 | SenderCalled _ => None
                 end) tr.

(** Every channel for which [markAsSent] was called carries the sent flag
    and the time of the call. *)
Definition restamped (env : Env) (w : World) : Prop :=
  forall c, MarkedSent c ∈ trace w ->
    sent (deliveryStatus (doc w) !!! c) = true /\
    chSentAt (deliveryStatus (doc w) !!! c) = Some (clock env).

(** Only enabled channels carry a sent flag. *)
Definition flagsEnabled (d : Notification) : Prop :=
  forall c, sent (deliveryStatus d !!! c) = true -> channels d !!! c = true.

(** Every enabled channel carries a sent flag. *)
Definition allEnabledSent (d : Notification) : Prop :=
  forall c, channels d !!! c = true -> sent (deliveryStatus d !!! c) = true.

(** The email sender returns at its first [return false]: no user, or a
    user who switched email notifications off. *)
Definition emailSkipped (env : Env) : bool :=
  match findById env with
  | Ok None => true
  | Ok (Some u) => negb (notifications_email u)
  | Throw _ => false
  end.

(** [sendNotification] lets an exception out: its first [save()] and the
    one in its [catch] block both reject. *)
Definition throws (env : Env) : bool := negb (saveOk env 0) && negb (saveOk env 1).

(** One operation of the service on a stored notification; the result is
    the document it leaves in memory or the copy it persisted. *)
Inductive step : Notification -> Notification -> Prop :=
| step_dispatch env n w n' :
    w = snd (sendNotification env (load n)) ->
    n' = doc w \/ n' = stored w ->
    step n n'
| step_sender env c n w n' :
    channels n !!! c = true ->
    w = snd (sender env c (load n)) ->
    n' = doc w \/ n' = stored w ->
    step n n'
| step_retry env n w n' :
    w = snd (retry env (load n)) ->
    n' = doc w \/ n' = stored w ->
    step n n'
| step_read env n w n' :
    w = snd (markAsRead env (load n)) ->
    n' = doc w \/ n' = stored w ->
    step n n'.

(** A notification created with the schema defaults and then operated on. *)
Definition reachable (n : Notification) : Prop :=
  exists id uid chans prio t mr,
    rtc step (newNotification id uid chans prio t mr) n.

(** How a started sender can end: it returned early without touching the
    document (email only), it recorded the success, it recorded a failure of
    the external call, or it recorded a failure because the [save()] of
    [markAsSent] rejected. *)
Inductive settles (env : Env) (c : Channel.t) (w : World) : World -> Prop :=
| settles_skip :
    c = Channel.email -> emailSkipped env = true -> settles env c w w
| settles_sent :
    fst (markAsSent env c w) = Ok tt ->
    settles env c w (snd (markAsSent env c w))
| settles_failed msg :
    settles env c w (snd (markAsFailed env c msg w))
| settles_unsaved msg :
    fst (markAsSent env c w) = Throw msg ->
    settles env c w (snd (markAsFailed env c msg (snd (markAsSent env c w)))).


(** The senders of a round run in their completion order, the world after
    the first two statements of [sendNotification], and the world after its
    [catch] block. *)
Definition settleAll (env : Env) (l : list Channel.t) (w : World) : World :=
  foldl (fun w c => snd (sender env c w)) w l.

Definition claim (env : Env) (w : World) : World :=
  snd (save env (mkWorld (set_status Status.sending (doc w)) (stored w) (saves w) (trace w))).

Definition giveUp (env : Env) (w : World) : World :=
  let w1 := claim env w in
  snd (save env (mkWorld (set_status Status.failed (doc w1)) (stored w1) (saves w1) (trace w1))).

(** The invariant that ties the sent flags to the status [sent], for a
    document and for the two copies of it in a world. *)
Definition consistent (d : Notification) : Prop :=
  flagsEnabled d /\ (status d = Status.sent -> allEnabledSent d).

Definition consistentWorld (chans : PerChannel bool) (w : World) : Prop :=
  (channels (doc w) = chans /\ consistent (doc w)) /\
  (channels (stored w) = chans /\ consistent (stored w)).

(** [r0] plus the failures recorded in the trace is the counter of the
    document in memory; the persisted counter lies between [r0] and that;
    [maxRetries] is [m] in both copies. *)
Definition counted (r0 m : Z) (w : World) : Prop :=
  (retryCount (doc w) = r0 + Z.of_nat (failures (trace w)))%Z /\
  (r0 <= retryCount (stored w) <= retryCount (doc w))%Z /\
  maxRetries (doc w) = m /\ maxRetries (stored w) = m.

(** ** Scenarios *)

(** Environments: everything works; the Telegram call is rejected; both the
    Telegram and the SMTP call are rejected; the user switched email
    notifications off; the store rejects every [save()]. *)
Definition allOk : Env :=
  mkEnv 1000 (fun _ => true) None (Ok (Some (mkUser "user@example.org" true))) None [].
Definition telegramDown : Env :=
  mkEnv 1000 (fun _ => true) (Some "ETELEGRAM") (Ok (Some (mkUser "user@example.org" true)))
    None [].
Definition bothDown : Env :=
  mkEnv 1000 (fun _ => true) (Some "ETELEGRAM") (Ok (Some (mkUser "user@example.org" true)))
    (Some "ESMTP") [].
Definition optedOut : Env :=
  mkEnv 1000 (fun _ => true) None (Ok (Some (mkUser "user@example.org" false))) None [].
Definition storeDown : Env :=
  mkEnv 1000 (fun _ => false) None (Ok (Some (mkUser "user@example.org" true))) None [].

(** Everything works, at a later time; of two started senders the second
    completes first. *)
Definition allOkLater : Env :=
  mkEnv 2000 (fun _ => true) None (Ok (Some (mkUser "user@example.org" true))) None [1].

(** The environments of a sweep whose first dispatch meets a store that
    rejects every [save()]. *)
Definition storeDownFirst (k : nat) : Env :=
  match k with
  | 0 => storeDown
  | S _ => allOk
  end.

(** Notifications as the service creates them ([sendWelcomeNotification],
    [sendSubscriptionExpiringNotification]; [maxRetries] is the schema
    default 3), one with the email channel only and one with no channel. *)
Definition welcome : Notification :=
  newNotification 1 1 (mkPerChannel true false false true) Priority.high 0 3.
Definition expiring : Notification :=
  newNotification 2 1 (mkPerChannel true true false true) Priority.high 0 3.
Definition emailOnly : Notification :=
  newNotification 3 1 (mkPerChannel false true false false) Priority.normal 0 3.
Definition silent : Notification :=
  newNotification 4 1 (mkPerChannel false false false false) Priority.normal 0 3.

(** A pending notification of the given priority, due at time 0. *)
Definition note (id : nat) (prio : Priority.t) : Notification :=
  newNotification id 1 (mkPerChannel true false false true) prio 0 3.

(** The stored document after one round. *)
Definition roundOf (env : Env) (n : Notification) : Notification :=
  stored (snd (sendNotification env (load n))).

(** ** Vocabulary of the further properties *)

(** The fields that no delivery operation writes. *)
Definition sameRecord (n d : Notification) : Prop :=
  id d = id n /\ userId d = userId n /\ channels d = channels n /\
  priority d = priority n /\ scheduledAt d = scheduledAt n /\
  readAt d = readAt n /\ maxRetries d = maxRetries n.

(** Every sent flag of [n] is a sent flag of [d]. *)
Definition keepsFlags (n d : Notification) : Prop :=
  forall c, sent (deliveryStatus n !!! c) = true -> sent (deliveryStatus d !!! c) = true.

(** What is marked sent carries its time stamp. *)
Definition stamped (d : Notification) : Prop :=
  (status d = Status.sent -> is_Some (sentAt d)) /\
  (forall c, sent (deliveryStatus d !!! c) = true ->
             is_Some (chSentAt (deliveryStatus d !!! c))).

(** Every external call of the enabled channels of [n] resolves, the user
    receives email, and the store accepts every [save()]. *)
Definition allResolve (env : Env) (n : Notification) : Prop :=
  (forall k, saveOk env k = true) /\
  (channels n !!! Channel.telegram = true -> telegramSend env = None) /\
  (channels n !!! Channel.email = true ->
     sendMail env = None /\
     exists u, findById env = Ok (Some u) /\ notifications_email u = true).

(** The document [markAsRead] leaves in memory when it reaches its
    [save()]. *)
Definition readDoc (now : Z) (d : Notification) : Notification :=
  set_deliveryStatus
    (<[Channel.inApp := set_chReadAt now (deliveryStatus d !!! Channel.inApp)]>
       (deliveryStatus d))
    (set_readAt now d).

(** What holds of the world while the senders of a round in which
    everything resolves run. *)
Definition delivering (env : Env) (r : Z) (w : World) : Prop :=
  stored w = doc w /\ failures (trace w) = 0 /\ retryCount (doc w) = r /\
  (status (doc w) = Status.sending \/ status (doc w) = Status.sent) /\
  (status (doc w) = Status.sent -> sentAt (doc w) = Some (clock env)).

(** A failed record has used up its retries. *)
Definition exhaustedIfFailed (d : Notification) : Prop :=
  status d = Status.failed -> (retryCount d >= maxRetries d)%Z.

(** Every recorded error of [n] is still recorded (possibly replaced by a
    later one) in [d]. *)
Definition keepsErrors (n d : Notification) : Prop :=
  forall c, is_Some (error (deliveryStatus n !!! c)) ->
            is_Some (error (deliveryStatus d !!! c)).

(** The inApp entry carries no error. *)
Definition noInAppError (d : Notification) : Prop :=
  error (deliveryStatus d !!! Channel.inApp) = None.

(** ** The other queries of the notification model *)

(** A stored notification with the [createdAt] stamp that the schema
    option [timestamps: true] maintains. *)
Record Row := mkRow {
  createdAt : Z;
  document : Notification
}.

(** [.limit(k)]; a limit of 0 is no limit. *)
Definition limitTo {A} (k : nat) (l : list A) : list A :=
  match k with
  | 0 => l
  | S _ => take k l
  end.

(** [.sort({ createdAt: -1 })] *)
Definition newerFirst (a b : Row) : Prop := (createdAt b <= createdAt a)%Z.

#[global] Instance newerFirst_dec a b : Decision (newerFirst a b).
Proof. unfold newerFirst. apply _. Defined.

(** [findByUser(userId, limit = 50)] *)
Definition findByUser (uid : nat) (limit : nat) (coll : list Row) : list Row :=
  limitTo limit (merge_sort newerFirst (filter (fun r => userId (document r) = uid) coll)).

(** [findUnreadByUser(userId)]: [readAt: { $exists: false }]. *)
Definition findUnreadByUser (uid : nat) (coll : list Row) : list Row :=
  merge_sort newerFirst
    (filter (fun r => userId (document r) = uid /\ readAt (document r) = None) coll).

(** The filter of [cleanupOld]:
    [createdAt: { $lt: cutoffDate }, status: { $in: ['sent', 'failed', 'cancelled'] }]. *)
Definition expired (cutoff : Z) (r : Row) : Prop :=
  (createdAt r < cutoff)%Z /\
  status (document r) ∈ [Status.sent; Status.failed; Status.cancelled].

#[global] Instance expired_dec cutoff r : Decision (expired cutoff r).
Proof. unfold expired. apply _. Defined.

(** [cleanupOld(days)], given the [cutoffDate] it computes (the current
    date moved back by [days] days): the collection after [deleteMany] and
    the [deletedCount] of its result. *)
Definition cleanupOld (cutoff : Z) (coll : list Row) : list Row * nat :=
  (filter (fun r => ~ expired cutoff r) coll, length (filter (expired cutoff) coll)).

(** ** Whole values as JavaScript Numbers *)

Module JsNumber.

(** The counters, times and amounts of the podcast and user models are
    Numbers, that is, doubles.  A Number that holds a whole value is
    modelled as that value; fractions are outside the model.  Every whole
    value of size at most [limit] = 2^53 is a Number.  [round] gives the
    Number nearest to a whole value beyond that (53 significant bits, a tie
    going to the even one; the model stops short of 2^1024, where Numbers
    become Infinity), and [add] is the [+] of two whole Numbers. *)
Definition limit : Z := 9007199254740992.

Definition round (z : Z) : Z :=
  if (Z.abs z <=? limit)%Z then z
  else
    let e := (Z.log2 (Z.abs z) - 52)%Z in
    let q := (Z.abs z / 2 ^ e)%Z in
    let r := (Z.abs z mod 2 ^ e)%Z in
    let up := (2 ^ (e - 1) <? r)%Z || ((2 ^ (e - 1) =? r)%Z && Z.odd q) in
    (Z.sgn z * (if up then q + 1 else q) * 2 ^ e)%Z.

Definition add (a b : Z) : Z := round (a + b).

End JsNumber.

(** ** The podcast model (backend/models/Podcast.js) *)

Module Podcast.

(** [status]: enum ['draft', 'published', 'archived']. *)
Inductive Status := draft | published | archived.
#[global] Instance status_eq_dec : EqDecision Status.
Proof. solve_decision. Defined.

(** The fields of a podcast document that its virtual fields, methods and
    queries read or write.  The Numbers ([stats.views], [stats.listens],
    [stats.totalListenTime] in seconds, [stats.purchases], [stats.revenue]
    in kopecks, [audio.full.duration] in seconds) are modelled for whole
    values, as [Z] (see [JsNumber]); [category] is the index of the
    category in the schema's enum; an absent date or duration is [None]. *)
Record t := mkPodcast {
  id : nat;
  category : nat;
  status : Status;
  publishedAt : option Z;
  fullDuration : option Z;
  views : Z;
  listens : Z;
  totalListenTime : Z;
  purchases : Z;
  revenue : Z
}.

Definition set_status (s : Status) (p : t) : t :=
  mkPodcast (id p) (category p) s (publishedAt p) (fullDuration p) (views p) (listens p)
    (totalListenTime p) (purchases p) (revenue p).
Definition set_publishedAt (d : Z) (p : t) : t :=
  mkPodcast (id p) (category p) (status p) (Some d) (fullDuration p) (views p) (listens p)
    (totalListenTime p) (purchases p) (revenue p).
Definition set_purchases (k rev : Z) (p : t) : t :=
  mkPodcast (id p) (category p) (status p) (publishedAt p) (fullDuration p) (views p)
    (listens p) (totalListenTime p) k rev.

(** The virtual field [isPublished] at time [now]. *)
Definition isPublished (now : Z) (p : t) : bool :=
  bool_decide (status p = published) &&
  match publishedAt p with
  | Some d => bool_decide (d <= now)%Z
  | None => false
  end.



(** The pre-save hook, for the fields above: a document whose status was
    modified to 'published' and that has no [publishedAt] is stamped.
    "Modified" is read as "differs from the persisted value". *)
Definition preSave (now : Z) (persisted p : t) : t :=
  if bool_decide (status p <> status persisted) && bool_decide (status p = published)
     && bool_decide (publishedAt p = None)
  then set_publishedAt now p
  else p.



Definition addPurchase (now : Z) (amount : Z) (p : t) : t :=
  preSave now p
    (set_purchases (JsNumber.add (purchases p) 1) (JsNumber.add (revenue p) amount) p).

Definition publish (now : Z) (p : t) : t :=
  preSave now p (set_publishedAt now (set_status published p)).

Definition archive (now : Z) (p : t) : t :=
  preSave now p (set_status archived p).

(** The filter shared by the four queries:
    [status: 'published', publishedAt: { $lte: now }]. *)
Definition visible (now : Z) (p : t) : Prop :=
  status p = published /\ exists d, publishedAt p = Some d /\ (d <= now)%Z.

#[global] Instance visible_dec now p : Decision (visible now p).
Proof.
  unfold visible. destruct (publishedAt p) as [d|].
  - destruct (decide (status p = published /\ (d <= now)%Z)) as [H|H].
    + left. split; [tauto|]. exists d. tauto.
    + right. intros [Hs (d' & Hd & Hle)]. injection Hd as <-. tauto.
  - right. by intros [_ (d & Hd & _)].
Defined.

(** [.sort({ publishedAt: -1 })]; an absent date sorts below every date. *)
Definition newestFirst (a b : t) : Prop :=
  match publishedAt a, publishedAt b with
  | _, None => True
  | None, Some _ => False
  | Some x, Some y => (y <= x)%Z
  end.

#[global] Instance newestFirst_dec a b : Decision (newestFirst a b).
Proof. unfold newestFirst. destruct (publishedAt a), (publishedAt b); apply _. Defined.

(** [.sort({ 'stats.listens': -1, 'stats.views': -1 })] *)
Definition mostListenedFirst (a b : t) : Prop :=
  (listens b < listens a)%Z \/ (listens b = listens a /\ (views b <= views a)%Z).

#[global] Instance mostListenedFirst_dec a b : Decision (mostListenedFirst a b).
Proof. unfold mostListenedFirst. apply _. Defined.

Definition findPublished (now : Z) (coll : list t) : list t :=
  merge_sort newestFirst (filter (visible now) coll).

Definition findByCategory (now : Z) (cat : nat) (coll : list t) : list t :=
  merge_sort newestFirst (filter (fun p => category p = cat /\ visible now p) coll).

Definition findPopular (now : Z) (limit : nat) (coll : list t) : list t :=
  limitTo limit (merge_sort mostListenedFirst (filter (visible now) coll)).

Definition findRecent (now : Z) (limit : nat) (coll : list t) : list t :=
  limitTo limit (merge_sort newestFirst (filter (visible now) coll)).

End Podcast.
(** ** [generateSlug] of the podcast model *)

Module Slug.

(** A JavaScript string, as its UTF-16 code units. *)
Definition jsString : Type := list N.

Definition dash : N := 45.
Definition underscore : N := 95.

(** ASCII letters and digits. *)
Definition isAlnum (c : N) : bool :=
  ((48 <=? c) && (c <=? 57) || (65 <=? c) && (c <=? 90) || (97 <=? c) && (c <=? 122))%N.

(** The class [\w]. *)
Definition isWord (c : N) : bool := isAlnum c || (c =? underscore)%N.

(** The class [\s]: the white space and line terminator code units. *)
Definition isSpace (c : N) : bool :=
  ((9 <=? c) && (c <=? 13) || (c =? 32) || (c =? 160) || (c =? 5760)
   || (8192 <=? c) && (c <=? 8202) || (c =? 8232) || (c =? 8233) || (c =? 8239)
   || (c =? 8287) || (c =? 12288) || (c =? 65279))%N.

(** The class [[\s_-]]. *)
Definition isSeparator (c : N) : bool :=
  isSpace c || (c =? underscore)%N || (c =? dash)%N.

(** [.replace(/[^\w\s-]/g, '')] *)
Definition dropOthers (s : jsString) : jsString :=
  filter (fun c => isWord c || isSpace c || (c =? dash)%N = true) s.

(** [.replace(/[\s_-]+/g, '-')]: every maximal run of separators becomes
    one dash; [inRun] says that the preceding code unit was a separator. *)
Fixpoint collapseRuns (inRun : bool) (s : jsString) : jsString :=
  match s with
  | [] => []
  | c :: s' =>
      if isSeparator c
      then (if inRun then collapseRuns true s' else dash :: collapseRuns true s')
      else c :: collapseRuns false s'
  end.

Fixpoint dropDashes (s : jsString) : jsString :=
  match s with
  | [] => []
  | c :: s' => if (c =? dash)%N then dropDashes s' else s
  end.

Fixpoint dropTrailingDashes (s : jsString) : jsString :=
  match s with
  | [] => []
  | c :: s' =>
      match dropTrailingDashes s' with
      | [] => if (c =? dash)%N then [] else [c]
      | t => c :: t
      end
  end.

(** [.replace(/^-+|-+$/g, '')]: the dashes at the start go, then those at
    the end. *)
Definition trimDashes (s : jsString) : jsString :=
  dropTrailingDashes (dropDashes s).

Section GenerateSlug.
(** [String.prototype.toLowerCase], and the text of
    [Date.now().toString(36)] at the call. *)
Variable toLowerCase : jsString -> jsString.
Variable stamp : jsString.

(** The slug before the time stamp is appended. *)
Definition slugBody (title : jsString) : jsString :=
  trimDashes (collapseRuns false (dropOthers (toLowerCase title))).

(** [generateSlug()]: the value it returns and [seo.slug] after the call.
    A stored slug is returned as it is unless it is absent or empty. *)
Definition generateSlug (title : jsString) (slug : option jsString)
    : jsString * option jsString :=
  match slug with
  | Some (c :: s) => (c :: s, slug)
  | _ =>
      let generated := slugBody title ++ [dash] ++ stamp in
      (generated, Some generated)
  end.
End GenerateSlug.

(** No two dashes in a row. *)
Fixpoint noDoubleDash (s : jsString) : Prop :=
  match s with
  | c :: (c' :: _) as s' => ~ (c = dash /\ c' = dash) /\ noDoubleDash s'
  | _ => True
  end.

(** The code units of a slug body: ASCII letters, digits and dashes. *)
Definition slugChar (c : N) : Prop := isAlnum c = true \/ c = dash.

End Slug.
(** ** Sequences of counting calls on a podcast *)






(** ** The user model (backend/models/User.js) *)

Module Account.

(** [purchases[].status]: enum ['pending', 'completed', 'failed', 'refunded']. *)
Inductive PurchaseStatus := pending | completed | failed | refunded.
#[global] Instance purchaseStatus_eq_dec : EqDecision PurchaseStatus.
Proof. solve_decision. Defined.

Record Purchase := mkPurchase {
  podcastId : nat;
  amount : Z;
  purchaseStatus : PurchaseStatus
}.

(** An entry of [listeningStats.podcastsListened]. *)
Record Listened := mkListened {
  listenedId : nat;
  listenCount : Z;
  listenedTime : Z;
  lastListened : Z
}.

(** The fields of a user document that the virtual fields and methods
    read or write; object ids are numbers, compared as the code compares
    their [toString()]; the free podcast is kept with its [usedAt].  The
    Numbers (amounts, [listeningStats.totalTime], and [listenCount] and
    [totalTime] of an entry) are modelled for whole values, as [Z] (see
    [JsNumber]). *)
Record t := mkAccount {
  subscriptionActive : bool;
  endDate : option Z;
  purchases : list Purchase;
  freePodcast : option (nat * Z);
  totalTime : Z;
  podcastsListened : list Listened;
  lastSeen : Z
}.




(** The pre-save hook: when [subscription.endDate] was modified,
    [subscription.isActive] is recomputed.  "Modified" is read as "differs
    from the persisted value". *)
Definition preSave (now : Z) (persisted u : t) : t :=
  if bool_decide (endDate u <> endDate persisted)
  then mkAccount
         (match endDate u with Some e => bool_decide (now < e)%Z | None => false end)
         (endDate u) (purchases u) (freePodcast u) (totalTime u) (podcastsListened u)
         (lastSeen u)
  else u.



Definition addPurchase (now : Z) (pid : nat) (amount : Z) (u : t) : t :=
  preSave now u
    (mkAccount (subscriptionActive u) (endDate u)
       (purchases u ++ [mkPurchase pid amount pending]) (freePodcast u)
       (totalTime u) (podcastsListened u) (lastSeen u)).

(** The update of [existingStat], the first entry of the podcast, if there
    is one. *)
Fixpoint listenAgain (now : Z) (pid : nat) (listenTime : Z) (stats : list Listened)
    : option (list Listened) :=
  match stats with
  | [] => None
  | s :: rest =>
      if bool_decide (listenedId s = pid)
      then Some (mkListened (listenedId s) (JsNumber.add (listenCount s) 1)
                   (JsNumber.add (listenedTime s) listenTime) now :: rest)
      else (fun rest' => s :: rest') <$> listenAgain now pid listenTime rest
  end.

Definition updateListeningStats (now : Z) (pid : nat) (listenTime : Z) (u : t) : t :=
  let stats :=
    match listenAgain now pid listenTime (podcastsListened u) with
    | Some stats => stats
    | None => podcastsListened u ++ [mkListened pid 1 listenTime now]
    end in
  preSave now u
    (mkAccount (subscriptionActive u) (endDate u) (purchases u) (freePodcast u)
       (JsNumber.add (totalTime u) listenTime) stats now).

(** The sums over the entries, as whole numbers, and what makes the
    statistics consistent: one entry per podcast, and a total time that is
    the sum of the times of the entries. *)
Definition sumTimes (stats : list Listened) : Z :=
  foldr (fun s sum => (listenedTime s + sum)%Z) 0%Z stats.

Definition sumCounts (stats : list Listened) : Z :=
  foldr (fun s sum => (listenCount s + sum)%Z) 0%Z stats.

Definition consistentStats (u : t) : Prop :=
  NoDup (listenedId <$> podcastsListened u) /\
  totalTime u = sumTimes (podcastsListened u).

(** The statistics hold values that are not negative. *)
Definition wholeStats (u : t) : Prop :=
  (0 <= totalTime u)%Z /\
  Forall (fun s => (0 <= listenCount s)%Z /\ (0 <= listenedTime s)%Z) (podcastsListened u).

End Account.

(** * Properties *)

(** ** Objects keyed by channel *)

Lemma lookup_insert_same {A} (m : PerChannel A) c v : (<[c := v]> m) !!! c = v.
Proof. by destruct c. Qed.

Lemma lookup_insert_other {A} (m : PerChannel A) c c' v :
  c <> c' -> (<[c := v]> m) !!! c' = m !!! c'.
Proof. by destruct c, c'. Qed.

Lemma elem_of_keys c : c ∈ Channel.keys.
Proof. unfold Channel.keys. destruct c; repeat constructor. Qed.

(** ** Comparing two filters of one list by length *)

Section FilterLength.
Context {A : Type} (P Q : A -> Prop).
Context `{!forall x, Decision (P x)} `{!forall x, Decision (Q x)}.

Lemma filter_length_le l :
  (forall x, x ∈ l -> Q x -> P x) ->
  length (filter Q l) <= length (filter P l).
Proof.
  induction l as [|a l IH]; intros Hsub; [done|].
  rewrite !filter_cons.
  assert (length (filter Q l) <= length (filter P l)).
  { apply IH. intros x Hx. apply Hsub. by right. }
  destruct (decide (Q a)) as [Hq|Hq].
  - rewrite decide_True by (apply Hsub; [by left|done]). simpl. lia.
  - destruct (decide (P a)); simpl; lia.
Qed.

Lemma filter_length_eq_iff l :
  (forall x, x ∈ l -> Q x -> P x) ->
  length (filter P l) = length (filter Q l) <-> (forall x, x ∈ l -> P x -> Q x).
Proof.
  induction l as [|a l IH]; intros Hsub.
  - split; [|done]. intros _ x Hx. by apply elem_of_nil in Hx.
  - assert (Hsub' : forall x, x ∈ l -> Q x -> P x).
    { intros x Hx. apply Hsub. by right. }
    specialize (IH Hsub'). pose proof (filter_length_le l Hsub') as Hle.
    rewrite !filter_cons.
    destruct (decide (P a)) as [Hp|Hp], (decide (Q a)) as [Hq|Hq]; simpl.
    + split.
      * intros Hlen x Hx HPx. apply elem_of_cons in Hx as [->|Hx]; [done|].
        apply IH; [lia|done..].
      * intros Hall. f_equal. apply IH. intros x Hx. apply Hall. by right.
    + split; [lia|]. intros Hall. destruct Hq. apply Hall; [by left|done].
    + destruct Hp. apply Hsub; [by left|done].
    + rewrite IH. split.
      * intros Hall x Hx HPx. apply elem_of_cons in Hx as [->|Hx]; [done|]. by apply Hall.
      * intros Hall x Hx. apply Hall. by right.
Qed.
End FilterLength.

Lemma counts_agree d :
  flagsEnabled d ->
  length (allChannels d) = length (sentChannels d) <-> allEnabledSent d.
Proof.
  intros Hfl. unfold allChannels, sentChannels.
  rewrite filter_length_eq_iff by (intros c _; apply Hfl).
  unfold allEnabledSent. split; [|by auto].
  intros H c. apply H, elem_of_keys.
Qed.

(** ** What the model methods do to a world *)

Section Methods.
Variable env : Env.

Lemma markAsSent_eq c w :
  markAsSent env c w =
  save env (mkWorld (sentDoc (clock env) c (doc w)) (stored w) (saves w)
              (trace w ++ [MarkedSent c])).
Proof.
  unfold markAsSent, sentDoc, mbind, M_bind, bind, emit, assign, getDoc, mret, M_ret, ret.
  simpl. by destruct (decide _).
Qed.

Lemma markAsFailed_eq c msg w :
  markAsFailed env c msg w =
  save env (mkWorld (failedDoc c msg (doc w)) (stored w) (saves w)
              (trace w ++ [MarkedFailed c msg])).
Proof.
  unfold markAsFailed, failedDoc, mbind, M_bind, bind, emit, assign, getDoc.
  simpl. by destruct (decide _).
Qed.

Lemma preSave_fields p d :
  let d' := preSave env p d in
  channels d' = channels d /\ deliveryStatus d' = deliveryStatus d /\
  status d' = status d /\ retryCount d' = retryCount d /\
  maxRetries d' = maxRetries d /\ scheduledAt d' = scheduledAt d.
Proof. unfold preSave. by destruct (_ && _). Qed.

Lemma save_doc w : doc (snd (save env w)) = preSave env (stored w) (doc w).
Proof. unfold save. by destruct (saveOk env _). Qed.

Lemma save_stored w :
  stored (snd (save env w)) =
  if saveOk env (saves w) then preSave env (stored w) (doc w) else stored w.
Proof. unfold save. by destruct (saveOk env _). Qed.

Lemma save_trace w : trace (snd (save env w)) = trace w.
Proof. unfold save. by destruct (saveOk env _). Qed.

Lemma save_saves w : saves (snd (save env w)) = S (saves w).
Proof. unfold save. by destruct (saveOk env _). Qed.

Lemma save_result w :
  fst (save env w) = if saveOk env (saves w) then Ok tt else Throw saveError.
Proof. unfold save. by destruct (saveOk env _). Qed.

End Methods.

(** ** How a sender ends *)

Section Senders.
Variable env : Env.

Ltac unfold_monad :=
  unfold tryCatch, mbind, M_bind, bind, mret, M_ret, ret, external, lift, throw.

(** The shape shared by the four senders once the external calls are done:
    [try { await markAsSent(c); return true } catch { await markAsFailed(c, msg); return false }]. *)
Lemma mark_or_fail_settles c w :
  settles env c w
    (snd (tryCatch (markAsSent env c;; mret true)
            (fun msg => markAsFailed env c msg;; mret false) w)).
Proof.
  unfold_monad.
  destruct (markAsSent env c w) as [[[]|msg] w1] eqn:E1; simpl.
  - replace w1 with (snd (markAsSent env c w)) by (by rewrite E1).
    apply settles_sent. by rewrite E1.
  - replace w1 with (snd (markAsSent env c w)) by (by rewrite E1).
    destruct (markAsFailed env c msg _) as [[[]|msg'] w2] eqn:E2; simpl;
      (replace w2 with (snd (markAsFailed env c msg (snd (markAsSent env c w))))
         by (by rewrite E2));
      apply settles_unsaved; by rewrite E1.
Qed.

Lemma snd_then_ret {A B} (m : M A) (b : B) w : snd ((m;; mret b) w) = snd (m w).
Proof. unfold_monad. by destruct (m w) as [[|] ?]. Qed.

Lemma tryCatch_external_ok {A} (m : M A) h w :
  tryCatch (external None;; m) h w = tryCatch m h w.
Proof. done. Qed.

Lemma tryCatch_external_err {A} msg (m : M A) h w :
  tryCatch (external (Some msg);; m) h w = h msg w.
Proof. done. Qed.

Lemma tryCatch_lift_ok {A B} (a : A) (f : A -> M B) h w :
  tryCatch (lift (Ok a) ≫= f) h w = tryCatch (f a) h w.
Proof. done. Qed.

Lemma tryCatch_lift_err {A B} msg (f : A -> M B) h w :
  tryCatch (lift (Throw msg) ≫= f) h w = h msg w.
Proof. done. Qed.

Lemma sender_settles c w : settles env c w (snd (sender env c w)).
Proof.
  destruct c; simpl.
  - unfold sendTelegramNotification.
    destruct (telegramSend env) as [msg|].
    + rewrite tryCatch_external_err, snd_then_ret. apply settles_failed.
    + rewrite tryCatch_external_ok. apply mark_or_fail_settles.
  - unfold sendEmailNotification.
    destruct (findById env) as [[u|]|msg] eqn:Eu.
    + rewrite tryCatch_lift_ok.
      destruct (notifications_email u) eqn:Eopt; simpl.
      * destruct (sendMail env) as [msg|].
        -- rewrite tryCatch_external_err, snd_then_ret. apply settles_failed.
        -- rewrite tryCatch_external_ok. apply mark_or_fail_settles.
      * apply settles_skip; [done|]. unfold emailSkipped. by rewrite Eu, Eopt.
    + rewrite tryCatch_lift_ok. apply settles_skip; [done|].
      unfold emailSkipped. by rewrite Eu.
    + rewrite tryCatch_lift_err, snd_then_ret. apply settles_failed.
  - apply mark_or_fail_settles.
  - apply mark_or_fail_settles.
Qed.
End Senders.

Lemma sendEmailNotification_skipped env w :
  emailSkipped env = true -> sendEmailNotification env w = (Ok false, w).
Proof.
  unfold emailSkipped, sendEmailNotification. intros Hskip.
  destruct (findById env) as [[u|]|msg]; [|done|done].
  rewrite tryCatch_lift_ok. by rewrite Hskip.
Qed.

(** ** The shape of a dispatch round *)

Lemma insertAt_Permutation {A} k (x : A) l : insertAt k x l ≡ₚ x :: l.
Proof.
  revert k. induction l as [|y l IH]; intros [|k]; simpl; try done.
  rewrite IH. apply Permutation_swap.
Qed.

Lemma permute_Permutation {A} code (l : list A) : permute code l ≡ₚ l.
Proof.
  revert code. induction l as [|x l IH]; intros [|k code]; simpl; try done.
  by rewrite insertAt_Permutation, IH.
Qed.

(** Every order of completion is the order of some code. *)
Lemma permute_complete {A} (l l' : list A) :
  l ≡ₚ l' -> exists code, permute code l = l'.
Proof.
  revert l'. induction l as [|x l IH]; intros l' Hp.
  - apply Permutation_nil_l in Hp as <-. by exists [].
  - assert (x ∈ l') as Hx by (rewrite <- Hp; by left).
    apply list_elem_of_split in Hx as (l1 & l2 & ->).
    apply Permutation_cons_app_inv in Hp.
    destruct (IH _ Hp) as (code & Hc).
    exists (length l1 :: code). simpl. rewrite Hc.
    clear. induction l1 as [|y l1 IH]; simpl; [by destruct l2|by rewrite IH].
Qed.

Lemma elem_of_started c d : c ∈ started d <-> channels d !!! c = true.
Proof.
  unfold started. rewrite list_elem_of_filter. pose proof (elem_of_keys c). tauto.
Qed.

Section Round.
Variable env : Env.

Lemma allSettled_senders l w :
  allSettled (sender env <$> l) w = (Ok tt, settleAll env l w).
Proof.
  revert w. induction l as [|c l IH]; intros w; [done|].
  simpl. by rewrite IH.
Qed.

Lemma started_claim w : started (doc (claim env w)) = started (doc w).
Proof.
  unfold claim, started. rewrite save_doc. simpl.
  by destruct (preSave_fields env (stored w) (set_status Status.sending (doc w))) as (-> & _).
Qed.

Lemma sendNotification_eq w :
  sendNotification env w =
  if saveOk env (saves w)
  then (Ok true,
        settleAll env (permute (settle env) (started (doc w)))
          (let w1 := claim env w in
           mkWorld (doc w1) (stored w1) (saves w1)
             (trace w1 ++ (SenderCalled <$> started (doc w)))))
  else (if saveOk env (S (saves w)) then Ok false else Throw saveError, giveUp env w).
Proof.
  rewrite <- started_claim.
  unfold sendNotification, giveUp, claim.
  unfold tryCatch at 1. unfold mbind at 1 2, M_bind, bind at 1 2, assign at 1.
  simpl.
  set (w0 := mkWorld (set_status Status.sending (doc w)) (stored w) (saves w) (trace w)).
  pose proof (save_result env w0) as Hr. 
  destruct (save env w0) as [r w1] eqn:Es. simpl in *.
  destruct (saveOk env (saves w)) eqn:E0; subst r.
  - unfold mbind, M_bind, bind, getDoc, emit, mret, M_ret, ret. simpl.
    rewrite allSettled_senders. done.
  - unfold mbind, M_bind, bind, assign. simpl. 
    set (w2 := mkWorld _ _ _ _).
    pose proof (save_result env w2) as Hr2. 
    assert (saves w1 = S (saves w)) as Hs.
    { replace w1 with (snd (save env w0)) by (by rewrite Es). by rewrite save_saves. }
    destruct (save env w2) as [r w3] eqn:Es2. simpl in *. rewrite Hs in Hr2. subst r.
    by destruct (saveOk env (S (saves w))).
Qed.

Lemma settleAll_ind (P : World -> Prop) l w :
  (forall c w1 w', c ∈ l -> P w1 -> settles env c w1 w' -> P w') ->
  P w -> P (settleAll env l w).
Proof.
  revert w. induction l as [|c l IH]; intros w Hstep Hw; [done|].
  simpl. apply IH.
  - intros c' w1 w' Hc'. apply Hstep. by right.
  - apply (Hstep c w); [by left|done|]. apply sender_settles.
Qed.

(** An invariant of the statements of [sendNotification] is an invariant of
    the round. *)
Lemma round_ind (P : World -> Prop) w :
  (forall w1 s, s <> Status.sent -> P w1 ->
     P (mkWorld (set_status s (doc w1)) (stored w1) (saves w1) (trace w1))) ->
  (forall w1, P w1 -> P (snd (save env w1))) ->
  (forall w1 l, P w1 ->
     P (mkWorld (doc w1) (stored w1) (saves w1) (trace w1 ++ (SenderCalled <$> l)))) ->
  (forall c w1 w', channels (doc w) !!! c = true -> P w1 -> settles env c w1 w' -> P w') ->
  P w -> P (snd (sendNotification env w)).
Proof.
  intros Hstatus Hsave Hemit Hsender Hw.
  assert (P (claim env w)) as Hclaim by (by apply Hsave, Hstatus).
  rewrite sendNotification_eq. destruct (saveOk env (saves w)); simpl.
  - apply settleAll_ind; [|by apply Hemit].
    intros c w1 w' Hc. apply Hsender.
    by rewrite permute_Permutation, elem_of_started in Hc.
  - unfold giveUp. by apply Hsave, Hstatus.
Qed.
End Round.

(** ** Sent flags and the status [sent] *)

Lemma sentDoc_fields now c d :
  let d' := sentDoc now c d in
  channels d' = channels d /\ retryCount d' = retryCount d /\
  maxRetries d' = maxRetries d /\
  (forall c', sent (deliveryStatus d' !!! c') = true <->
              c' = c \/ sent (deliveryStatus d !!! c') = true).
Proof.
  unfold sentDoc. simpl.
  assert (forall c',
    sent ((<[c := set_chSentAt now (set_sent true (deliveryStatus d !!! c))]>
             (deliveryStatus d)) !!! c') = true <->
    c' = c \/ sent (deliveryStatus d !!! c') = true) as Hflag.
  { intros c'. destruct (decide (c = c')) as [->|Hne].
    - rewrite lookup_insert_same. simpl. tauto.
    - rewrite lookup_insert_other by done. split; [by right|]. by intros [->|]. }
  by destruct (decide _).
Qed.

Lemma sentDoc_status now c d :
  flagsEnabled d -> channels d !!! c = true ->
  let d' := sentDoc now c d in
  flagsEnabled d' /\
  (allEnabledSent d' -> status d' = Status.sent) /\
  (status d' = Status.sent -> allEnabledSent d' \/ status d = Status.sent) /\
  (status d' <> Status.sent -> status d' = status d).
Proof.
  intros Hfl Hc d'.
  destruct (sentDoc_fields now c d) as (Hch & _ & _ & Hflags). fold d' in Hch, Hflags.
  assert (flagsEnabled d') as Hfl'.
  { intros c' Hs. rewrite Hch. apply Hflags in Hs as [->|Hs]; [done|by apply Hfl]. }
  split; [done|]. clear Hch Hflags.
  revert Hfl'. unfold d', sentDoc. simpl.
  set (d1 := set_deliveryStatus _ d).
  destruct (decide (length (allChannels d1) = length (sentChannels d1))) as [Heq|Hne];
    simpl; intros Hfl'.
  - repeat split; try done. intros _. left. by apply (counts_agree d1).
  - repeat split; try tauto.
    intros Hall. destruct Hne. by apply counts_agree.
Qed.

Lemma consistent_sentDoc now c d :
  channels d !!! c = true -> consistent d -> consistent (sentDoc now c d).
Proof.
  intros Hc [Hfl Hsound].
  destruct (sentDoc_status now c d Hfl Hc) as (Hfl' & _ & Hs & _).
  split; [done|]. intros Hst. destruct (Hs Hst) as [|Hold]; [done|].
  destruct (sentDoc_fields now c d) as (Hch & _ & _ & Hflags).
  intros c'. rewrite Hch, Hflags. intros Hc'. right. by apply Hsound.
Qed.

Lemma recordError_fields c msg e :
  sent (recordError c msg e) = sent e /\ chSentAt (recordError c msg e) = chSentAt e /\
  chReadAt (recordError c msg e) = chReadAt e.
Proof. by destruct c. Qed.

Lemma failedDoc_fields c msg d :
  let d' := failedDoc c msg d in
  channels d' = channels d /\ retryCount d' = (retryCount d + 1)%Z /\
  maxRetries d' = maxRetries d /\
  status d' = (if decide (retryCount d' >= maxRetries d')%Z
               then Status.failed else Status.pending) /\
  (forall c', sent (deliveryStatus d' !!! c') = sent (deliveryStatus d !!! c')).
Proof.
  unfold failedDoc. simpl.
  assert (forall c',
    sent ((<[c := recordError c msg (deliveryStatus d !!! c)]> (deliveryStatus d)) !!! c') =
    sent (deliveryStatus d !!! c')) as Hflag.
  { intros c'. destruct (decide (c = c')) as [->|Hne].
    - rewrite lookup_insert_same. apply recordError_fields.
    - by rewrite lookup_insert_other. }
  destruct (decide _) as [H|H] eqn:E; simpl; rewrite ?E; done.
Qed.

Lemma consistent_failedDoc c msg d : consistent d -> consistent (failedDoc c msg d).
Proof.
  intros [Hfl _].
  destruct (failedDoc_fields c msg d) as (Hch & _ & _ & Hst & Hflags).
  split.
  - intros c'. rewrite Hch, Hflags. apply Hfl.
  - rewrite Hst. by destruct (decide _).
Qed.

Lemma consistent_set_status s d :
  s <> Status.sent -> consistent d -> consistent (set_status s d).
Proof. intros Hs [Hfl _]. by split. Qed.

Lemma consistent_preSave env p d : consistent d -> consistent (preSave env p d).
Proof.
  unfold preSave. by destruct (_ && _).
Qed.

Section ConsistentWorld.
Variable env : Env.
Variable chans : PerChannel bool.

Lemma consistentWorld_save w :
  consistentWorld chans w -> consistentWorld chans (snd (save env w)).
Proof.
  intros [[Hc Hd] Hs]. unfold consistentWorld.
  rewrite save_doc, save_stored.
  assert (channels (preSave env (stored w) (doc w)) = chans /\
          consistent (preSave env (stored w) (doc w))) as Hp.
  { split; [|by apply consistent_preSave].
    by destruct (preSave_fields env (stored w) (doc w)) as (-> & _). }
  split; [done|]. by destruct (saveOk env _).
Qed.

Lemma consistentWorld_doc f w tr :
  (channels (f (doc w)) = channels (doc w)) ->
  (consistent (doc w) -> consistent (f (doc w))) ->
  consistentWorld chans w ->
  consistentWorld chans (mkWorld (f (doc w)) (stored w) (saves w) tr).
Proof.
  intros Hch Hf [[Hc Hd] Hs]. split; [|done]. simpl. split; [congruence|auto].
Qed.

Lemma consistentWorld_markAsSent c w :
  chans !!! c = true ->
  consistentWorld chans w -> consistentWorld chans (snd (markAsSent env c w)).
Proof.
  intros Hc Hw. rewrite markAsSent_eq. apply consistentWorld_save.
  apply (consistentWorld_doc (sentDoc (clock env) c)); [|
    |done].
  - by destruct (sentDoc_fields (clock env) c (doc w)) as (-> & _).
  - apply consistent_sentDoc. destruct Hw as [[-> _] _]. done.
Qed.

Lemma consistentWorld_markAsFailed c msg w :
  consistentWorld chans w -> consistentWorld chans (snd (markAsFailed env c msg w)).
Proof.
  intros Hw. rewrite markAsFailed_eq. apply consistentWorld_save.
  apply (consistentWorld_doc (failedDoc c msg)); [| |done].
  - by destruct (failedDoc_fields c msg (doc w)) as (-> & _).
  - apply consistent_failedDoc.
Qed.

Lemma consistentWorld_settles c w w' :
  chans !!! c = true ->
  consistentWorld chans w -> settles env c w w' -> consistentWorld chans w'.
Proof.
  intros Hc Hw Hs. destruct Hs.
  - done.
  - by apply consistentWorld_markAsSent.
  - by apply consistentWorld_markAsFailed.
  - by apply consistentWorld_markAsFailed, consistentWorld_markAsSent.
Qed.

Lemma consistentWorld_round w :
  consistentWorld chans w -> consistentWorld chans (snd (sendNotification env w)).
Proof.
  intros Hw. apply round_ind; [| | | |done].
  - intros w1 s Hs Hw1. apply (consistentWorld_doc (set_status s)); [done| |done].
    by apply consistent_set_status.
  - apply consistentWorld_save.
  - intros w1 l Hw1. by apply (consistentWorld_doc (fun d => d)).
  - intros c w1 w' Hc Hw1. apply consistentWorld_settles; [|done].
    destruct Hw as [[<- _] _]. done.
Qed.

Lemma retry_eq w :
  retry env w =
  save env (mkWorld (set_scheduledAt (clock env) (set_status Status.pending (doc w)))
              (stored w) (saves w) (trace w)).
Proof. done. Qed.

Lemma markAsRead_eq w :
  markAsRead env w =
  save env
    (mkWorld
       (set_deliveryStatus
          (<[Channel.inApp :=
               set_chReadAt (clock env) (deliveryStatus (doc w) !!! Channel.inApp)]>
             (deliveryStatus (doc w)))
          (set_readAt (clock env) (doc w)))
       (stored w) (saves w) (trace w)).
Proof. done. Qed.

Lemma consistentWorld_retry w :
  consistentWorld chans w -> consistentWorld chans (snd (retry env w)).
Proof.
  intros Hw. rewrite retry_eq. apply consistentWorld_save.
  apply (consistentWorld_doc
           (fun d => set_scheduledAt (clock env) (set_status Status.pending d)));
    [done| |done].
  intros [Hfl _]. by split.
Qed.

Lemma consistentWorld_markAsRead w :
  consistentWorld chans w -> consistentWorld chans (snd (markAsRead env w)).
Proof.
  intros Hw. rewrite markAsRead_eq. apply consistentWorld_save.
  apply (consistentWorld_doc
           (fun d =>
              set_deliveryStatus
                (<[Channel.inApp :=
                     set_chReadAt (clock env) (deliveryStatus d !!! Channel.inApp)]>
                   (deliveryStatus d))
                (set_readAt (clock env) d)));
    [done| |done].
  intros [Hfl Hs].
  assert (forall c',
    sent ((<[Channel.inApp :=
               set_chReadAt (clock env) (deliveryStatus (doc w) !!! Channel.inApp)]>
             (deliveryStatus (doc w))) !!! c') =
    sent (deliveryStatus (doc w) !!! c')) as Hflag by (by intros []).
  split.
  - intros c'. simpl. rewrite Hflag. apply Hfl.
  - simpl. intros Hst c' Hc'. rewrite Hflag. by apply Hs.
Qed.
End ConsistentWorld.

Lemma consistentWorld_load n : consistent n -> consistentWorld (channels n) (load n).
Proof. by intros Hn. Qed.

Lemma step_consistent n n' :
  step n n' -> consistent n -> consistent n' /\ channels n' = channels n.
Proof.
  intros Hstep Hn. apply consistentWorld_load in Hn.
  assert (forall w, consistentWorld (channels n) w ->
            n' = doc w \/ n' = stored w ->
            consistent n' /\ channels n' = channels n) as Hfin.
  { intros w [[? ?] [? ?]] [->| ->]; done. }
  destruct Hstep as [env n w n' -> Hn'|env c n w n' Hc -> Hn'|env n w n' -> Hn'|env n w n' -> Hn'];
    (eapply Hfin; [|done]).
  - by apply consistentWorld_round.
  - eapply consistentWorld_settles; [done..|]. apply sender_settles.
  - by apply consistentWorld_retry.
  - by apply consistentWorld_markAsRead.
Qed.

Lemma consistent_new id uid chans prio t mr :
  consistent (newNotification id uid chans prio t mr).
Proof. split; [by intros []|done]. Qed.

Lemma reachable_consistent n : reachable n -> consistent n.
Proof.
  intros (id & uid & chans & prio & t & mr & Hsteps).
  pose proof (consistent_new id uid chans prio t mr) as Hnew.
  induction Hsteps as [|n1 n2 n3 Hstep _ IH]; [done|].
  apply IH. by apply (step_consistent n1 n2).
Qed.

(** ** Status [sent] and the sent flags (C2) *)

Lemma reachable_step n n' : reachable n -> step n n' -> reachable n'.
Proof.
  intros (id & uid & chans & prio & t & mr & Hsteps) Hstep.
  exists id, uid, chans, prio, t, mr. eapply rtc_r; done.
Qed.

Lemma reachable_new id uid chans prio t mr :
  reachable (newNotification id uid chans prio t mr).
Proof. by exists id, uid, chans, prio, t, mr. Qed.

Lemma reachable_roundOf env n : reachable n -> reachable (roundOf env n).
Proof.
  intros Hn. apply (reachable_step n); [done|].
  eapply step_dispatch; [done|]. by right.
Qed.

(** C2, as amended: in every state reached from a newly created
    notification by the operations of the service, status [sent] implies
    that every enabled channel carries its sent flag; and in the document
    that [markAsSent] leaves for an enabled channel, status [sent] holds
    exactly when every enabled channel carries its sent flag. *)
Theorem sent_status_sound n :
  reachable n ->
  (status n = Status.sent -> allEnabledSent n) /\
  (forall env c, channels n !!! c = true ->
     let d := doc (snd (markAsSent env c (load n))) in
     status d = Status.sent <-> allEnabledSent d).
Proof.
  intros Hn. apply reachable_consistent in Hn as [Hfl Hsound].
  split; [done|]. intros env c Hc d.
  assert (status d = status (sentDoc (clock env) c n) /\
          deliveryStatus d = deliveryStatus (sentDoc (clock env) c n) /\
          channels d = channels (sentDoc (clock env) c n)) as (Hst & Hds & Hch).
  { unfold d. rewrite markAsSent_eq, save_doc. simpl.
    destruct (preSave_fields env n (sentDoc (clock env) c n)) as (? & ? & ? & _). done. }
  assert (allEnabledSent d <-> allEnabledSent (sentDoc (clock env) c n)) as ->.
  { unfold allEnabledSent. by rewrite Hds, Hch. }
  rewrite Hst.
  destruct (sentDoc_status (clock env) c n Hfl Hc) as (_ & Hto & Hfrom & _).
  split; [|done]. intros Hs. destruct (Hfrom Hs) as [|Hold]; [done|].
  destruct (sentDoc_fields (clock env) c n) as (Hch' & _ & _ & Hflags).
  intros c'. rewrite Hch', Hflags. intros Hc'. right. by apply Hsound.
Qed.

Lemma sent_status_sound_witness :
  let n := roundOf telegramDown welcome in
  let d := doc (snd (markAsSent allOk Channel.telegram (load n))) in
  (status n = Status.sent -> allEnabledSent n) /\
  (status d = Status.sent <-> allEnabledSent d).
Proof.
  destruct (sent_status_sound (roundOf telegramDown welcome)) as [Hsound Hmark].
  - apply reachable_roundOf, reachable_new.
  - split; [exact Hsound|]. apply (Hmark allOk Channel.telegram). reflexivity.
Defined.

(** C2 as stated fails from right to left: the delivered welcome
    notification, once [retry()] was called on it, is pending again while
    both of its enabled channels still carry their sent flags. *)
Lemma retried_record_breaks_equivalence :
  let delivered := roundOf allOk welcome in
  let again := stored (snd (retry allOk (load delivered))) in
  status delivered = Status.sent /\
  reachable again /\ allEnabledSent again /\ status again <> Status.sent.
Proof.
  split; [reflexivity|]. split; [|split].
  - apply (reachable_step (roundOf allOk welcome)).
    + apply reachable_roundOf, reachable_new.
    + eapply step_retry; [done|]. by right.
  - by intros [].
  - vm_compute. discriminate.
Qed.

(** ** Traces *)

Lemma senderCalls_app tr1 tr2 : senderCalls (tr1 ++ tr2) = senderCalls tr1 ++ senderCalls tr2.
Proof. apply omap_app. Qed.

Lemma senderCalls_started l : senderCalls (SenderCalled <$> l) = l.
Proof. induction l as [|c l IH]; [done|]. cbn. by f_equal. Qed.

Lemma failures_app tr1 tr2 : failures (tr1 ++ tr2) = failures tr1 + failures tr2.
Proof. unfold failures. by rewrite omap_app, length_app. Qed.

Lemma failures_started l : failures (SenderCalled <$> l) = 0.
Proof. induction l as [|c l IH]; done. Qed.

Section Traces.
Variable env : Env.

Lemma markAsSent_trace c w :
  trace (snd (markAsSent env c w)) = trace w ++ [MarkedSent c].
Proof. by rewrite markAsSent_eq, save_trace. Qed.

Lemma markAsFailed_trace c msg w :
  trace (snd (markAsFailed env c msg w)) = trace w ++ [MarkedFailed c msg].
Proof. by rewrite markAsFailed_eq, save_trace. Qed.

Lemma settles_senderCalls c w w' :
  settles env c w w' -> senderCalls (trace w') = senderCalls (trace w).
Proof.
  intros Hs. destruct Hs;
    rewrite ?markAsFailed_trace, ?markAsSent_trace, ?senderCalls_app; simpl;
    rewrite ?app_nil_r; done.
Qed.

Lemma claim_trace w : trace (claim env w) = trace w.
Proof. unfold claim. by rewrite save_trace. Qed.

Lemma giveUp_trace w : trace (giveUp env w) = trace w.
Proof. unfold giveUp. by rewrite save_trace, claim_trace. Qed.

(** The senders a round starts: those of the enabled channels, in the order
    of the four tests, when the first [save()] resolved; none otherwise. *)
Lemma round_senderCalls w :
  senderCalls (trace (snd (sendNotification env w))) =
  senderCalls (trace w) ++ (if saveOk env (saves w) then started (doc w) else []).
Proof.
  rewrite sendNotification_eq. destruct (saveOk env (saves w)); simpl.
  - apply (settleAll_ind env (fun w' => senderCalls (trace w') = _)).
    + intros c w1 w' _ <-. apply settles_senderCalls.
    + simpl. by rewrite senderCalls_app, senderCalls_started, claim_trace.
  - by rewrite giveUp_trace, app_nil_r.
Qed.
End Traces.

(** ** Senders started by a round (C1) *)

Lemma marked_app tr1 tr2 : marked (tr1 ++ tr2) = marked tr1 ++ marked tr2.
Proof. apply omap_app. Qed.

Lemma marked_started l : marked (SenderCalled <$> l) = [].
Proof. induction l as [|c l IH]; done. Qed.

Lemma sentDoc_entry now c d c' :
  deliveryStatus (sentDoc now c d) !!! c' =
  if decide (c = c') then set_chSentAt now (set_sent true (deliveryStatus d !!! c))
  else deliveryStatus d !!! c'.
Proof.
  unfold sentDoc. simpl.
  destruct (decide (length _ = _)); simpl; destruct (decide (c = c')) as [->|Hne];
    by rewrite ?lookup_insert_same, ?lookup_insert_other.
Qed.

Lemma failedDoc_entry c msg d c' :
  deliveryStatus (failedDoc c msg d) !!! c' =
  if decide (c = c') then recordError c msg (deliveryStatus d !!! c)
  else deliveryStatus d !!! c'.
Proof.
  unfold failedDoc. simpl.
  destruct (decide (_ >= _)%Z); simpl; destruct (decide (c = c')) as [->|Hne];
    by rewrite ?lookup_insert_same, ?lookup_insert_other.
Qed.

Section Attempts.
Variable env : Env.

Lemma markAsSent_result c w :
  fst (markAsSent env c w) = if saveOk env (saves w) then Ok tt else Throw saveError.
Proof. by rewrite markAsSent_eq, save_result. Qed.

Lemma markAsSent_saves c w : saves (snd (markAsSent env c w)) = S (saves w).
Proof. by rewrite markAsSent_eq, save_saves. Qed.

Lemma markAsFailed_saves c msg w : saves (snd (markAsFailed env c msg w)) = S (saves w).
Proof. by rewrite markAsFailed_eq, save_saves. Qed.

(** A sender's calls of the mark methods, and the number of its [save()]
    calls, depend on the environment only, not on the document. *)
Lemma mark_or_fail_log c w1 w2 :
  trace w1 = trace w2 -> saves w1 = saves w2 ->
  let run w := snd (tryCatch (markAsSent env c;; mret true)
                      (fun msg => markAsFailed env c msg;; mret false) w) in
  trace (run w1) = trace (run w2) /\ saves (run w1) = saves (run w2).
Proof.
  intros Ht Hs. simpl.
  pose proof (markAsSent_result c w1) as Hr1.
  pose proof (markAsSent_result c w2) as Hr2.
  pose proof (markAsSent_trace env c w1) as Ht1.
  pose proof (markAsSent_trace env c w2) as Ht2.
  pose proof (markAsSent_saves c w1) as Hs1.
  pose proof (markAsSent_saves c w2) as Hs2.
  unfold tryCatch, mbind, M_bind, bind, mret, M_ret, ret.
  destruct (markAsSent env c w1) as [r1 v1], (markAsSent env c w2) as [r2 v2].
  simpl in *. rewrite <- Hs in Hr2. subst r1 r2.
  destruct (saveOk env (saves w1)); simpl.
  - split; congruence.
  - pose proof (markAsFailed_trace env c saveError v1) as Hf1.
    pose proof (markAsFailed_trace env c saveError v2) as Hf2.
    pose proof (markAsFailed_saves c saveError v1) as Hg1.
    pose proof (markAsFailed_saves c saveError v2) as Hg2.
    destruct (markAsFailed env c saveError v1) as [[[]|m1] u1],
             (markAsFailed env c saveError v2) as [[[]|m2] u2];
      simpl in *; split; congruence.
Qed.

Lemma sender_log c w1 w2 :
  trace w1 = trace w2 -> saves w1 = saves w2 ->
  trace (snd (sender env c w1)) = trace (snd (sender env c w2)) /\
  saves (snd (sender env c w1)) = saves (snd (sender env c w2)).
Proof.
  intros Ht Hs.
  assert (forall msg,
    trace (snd (markAsFailed env c msg w1)) = trace (snd (markAsFailed env c msg w2)) /\
    saves (snd (markAsFailed env c msg w1)) = saves (snd (markAsFailed env c msg w2)))
    as Hfail.
  { intros msg. rewrite !markAsFailed_trace, !markAsFailed_saves. split; congruence. }
  destruct c; simpl.
  - unfold sendTelegramNotification. destruct (telegramSend env) as [msg|].
    + rewrite !tryCatch_external_err, !snd_then_ret. apply Hfail.
    + rewrite !tryCatch_external_ok. by apply mark_or_fail_log.
  - unfold sendEmailNotification. destruct (findById env) as [[u|]|msg].
    + rewrite !tryCatch_lift_ok. destruct (notifications_email u); simpl; [|done].
      destruct (sendMail env) as [msg|].
      * rewrite !tryCatch_external_err, !snd_then_ret. apply Hfail.
      * rewrite !tryCatch_external_ok. by apply mark_or_fail_log.
    + by rewrite !tryCatch_lift_ok.
    + rewrite !tryCatch_lift_err, !snd_then_ret. apply Hfail.
  - exact (mark_or_fail_log Channel.push w1 w2 Ht Hs).
  - exact (mark_or_fail_log Channel.inApp w1 w2 Ht Hs).
Qed.

Lemma settleAll_log l w1 w2 :
  trace w1 = trace w2 -> saves w1 = saves w2 ->
  trace (settleAll env l w1) = trace (settleAll env l w2).
Proof.
  revert w1 w2. induction l as [|c l IH]; intros w1 w2 Ht Hs; [done|].
  simpl. destruct (sender_log c w1 w2 Ht Hs). by apply IH.
Qed.

(** Every sender calls a mark method for its channel, except the email
    sender when it returns early. *)
Lemma sender_marked c w x :
  x ∈ marked (trace (snd (sender env c w))) <->
  x ∈ marked (trace w) \/
  (x = c /\ ~ (c = Channel.email /\ emailSkipped env = true)).
Proof.
  destruct (decide (c = Channel.email /\ emailSkipped env = true)) as [[-> Hskip]|Hrun].
  - simpl. rewrite sendEmailNotification_skipped by done. simpl. tauto.
  - pose proof (sender_settles env c w) as Hset. revert Hset.
    generalize (snd (sender env c w)). intros w' Hset.
    destruct Hset as [Hc Hskip|Hok|msg|msg Hthrow].
    + tauto.
    + rewrite markAsSent_trace, marked_app, elem_of_app. simpl.
      rewrite list_elem_of_singleton. tauto.
    + rewrite markAsFailed_trace, marked_app, elem_of_app. simpl.
      rewrite list_elem_of_singleton. tauto.
    + rewrite markAsFailed_trace, markAsSent_trace, !marked_app, !elem_of_app. simpl.
      rewrite !list_elem_of_singleton. tauto.
Qed.

Lemma settleAll_marked l w x :
  x ∈ marked (trace (settleAll env l w)) <->
  x ∈ marked (trace w) \/
  (x ∈ l /\ ~ (x = Channel.email /\ emailSkipped env = true)).
Proof.
  revert w. induction l as [|c l IH]; intros w; simpl.
  - rewrite elem_of_nil. tauto.
  - rewrite IH, sender_marked, elem_of_cons.
    split; [intros [[?|[-> ?]]|[? ?]]|intros [?|[[->|?] ?]]]; tauto.
Qed.

Lemma restamped_save w : restamped env w -> restamped env (snd (save env w)).
Proof.
  intros H c. rewrite save_trace, save_doc.
  destruct (preSave_fields env (stored w) (doc w)) as (_ & -> & _). apply H.
Qed.

Lemma restamped_markAsSent c w :
  restamped env w -> restamped env (snd (markAsSent env c w)).
Proof.
  intros H. rewrite markAsSent_eq. apply restamped_save.
  intros c'. simpl. rewrite sentDoc_entry, elem_of_app, list_elem_of_singleton.
  destruct (decide (c = c')) as [->|Hne]; [done|].
  intros [Hin|Heq]; [by apply H|congruence].
Qed.

Lemma restamped_markAsFailed c msg w :
  restamped env w -> restamped env (snd (markAsFailed env c msg w)).
Proof.
  intros H. rewrite markAsFailed_eq. apply restamped_save.
  intros c'. simpl. rewrite failedDoc_entry, elem_of_app, list_elem_of_singleton.
  intros [Hin|Heq]; [|discriminate].
  destruct (decide (c = c')) as [->|Hne]; [|by apply H].
  destruct (recordError_fields c' msg (deliveryStatus (doc w) !!! c')) as (-> & -> & _).
  by apply H.
Qed.

Lemma restamped_round n : restamped env (snd (sendNotification env (load n))).
Proof.
  apply round_ind.
  - intros w1 s _ H. exact H.
  - apply restamped_save.
  - intros w1 l H c. simpl. rewrite elem_of_app, list_elem_of_fmap.
    intros [Hin|(c' & Heq & _)]; [by apply H|discriminate].
  - intros c w1 w' _ H Hset. destruct Hset.
    + done.
    + by apply restamped_markAsSent.
    + by apply restamped_markAsFailed.
    + by apply restamped_markAsFailed, restamped_markAsSent.
  - intros c Hin. by apply elem_of_nil in Hin.
Qed.

End Attempts.

(** C1, as amended: a dispatch round runs the sender of every channel c
    with channels[c] == true, in the order telegram, email, push, inApp,
    provided its first save() resolved (it runs none otherwise), whatever
    deliveryStatus[c].sent is: each of them goes on to call markAsSent or
    markAsFailed for its channel (the email sender unless it returns
    early), a channel for which markAsSent is called gets the time of this
    round as its sentAt, and the calls a round makes are the same for every
    value of deliveryStatus.  A channel that is already marked sent is
    therefore attempted again. *)
Theorem round_starts_enabled_channels env n :
  let w := snd (sendNotification env (load n)) in
  senderCalls (trace w) =
    (if saveOk env 0
     then filter (fun c => channels n !!! c = true) Channel.keys
     else []) /\
  (forall c, c ∈ marked (trace w) <->
     saveOk env 0 = true /\ channels n !!! c = true /\
     ~ (c = Channel.email /\ emailSkipped env = true)) /\
  (forall c, MarkedSent c ∈ trace w ->
     sent (deliveryStatus (doc w) !!! c) = true /\
     chSentAt (deliveryStatus (doc w) !!! c) = Some (clock env)) /\
  (forall ds,
     trace (snd (sendNotification env (load (set_deliveryStatus ds n)))) = trace w).
Proof.
  simpl. split; [by rewrite round_senderCalls|]. split; [|split].
  - intros c. rewrite sendNotification_eq. simpl.
    destruct (saveOk env 0); simpl.
    + rewrite settleAll_marked. simpl.
      rewrite marked_app, claim_trace, marked_started.
      rewrite permute_Permutation, elem_of_started. simpl.
      rewrite elem_of_nil. tauto.
    + rewrite giveUp_trace. simpl. rewrite elem_of_nil.
      split; [done|]. by intros [? _].
  - apply restamped_round.
  - intros ds. rewrite !sendNotification_eq. simpl.
    destruct (saveOk env 0); simpl.
    + apply settleAll_log; simpl.
      * by rewrite !claim_trace.
      * unfold claim. by rewrite !save_saves.
    + by rewrite !giveUp_trace.
Qed.

(** C1 as stated fails: the first round of the welcome notification, at
    time 1000, records inApp as sent and telegram as failed and leaves the
    record pending; the next round, at time 2000, runs the senders of both
    channels, calls markAsSent for inApp again and replaces the sentAt of
    the inApp entry by the new time. *)
Lemma sent_channel_is_attempted_again :
  let p := roundOf telegramDown welcome in
  let w := snd (sendNotification allOkLater (load p)) in
  sent (deliveryStatus p !!! Channel.inApp) = true /\
  chSentAt (deliveryStatus p !!! Channel.inApp) = Some 1000%Z /\
  sent (deliveryStatus p !!! Channel.telegram) = false /\
  due 2000 p /\
  senderCalls (trace w) = [Channel.telegram; Channel.inApp] /\
  Channel.inApp ∈ marked (trace w) /\
  MarkedSent Channel.inApp ∈ trace w /\
  chSentAt (deliveryStatus (doc w) !!! Channel.inApp) = Some 2000%Z.
Proof.
  split; [reflexivity|]. split; [reflexivity|]. split; [reflexivity|].
  split; [by split|]. split; [reflexivity|].
  split; [|split; [|reflexivity]].
  - vm_compute. by left.
  - vm_compute. right. right. by left.
Qed.

(** ** The retry counter (C3, C4) *)

Lemma failures_snoc_sent tr c : failures (tr ++ [MarkedSent c]) = failures tr.
Proof. rewrite failures_app. apply Nat.add_0_r. Qed.

Lemma failures_snoc_failed tr c msg :
  failures (tr ++ [MarkedFailed c msg]) = S (failures tr).
Proof. rewrite failures_app. apply Nat.add_1_r. Qed.

Section Counted.
Variable env : Env.
Variables r0 m : Z.

Lemma counted_save w : counted r0 m w -> counted r0 m (snd (save env w)).
Proof.
  intros (Hrc & Hst & Hm1 & Hm2). unfold counted.
  rewrite save_doc, save_stored, save_trace.
  destruct (preSave_fields env (stored w) (doc w)) as (_ & _ & _ & Hr & Hm & _).
  destruct (saveOk env _); rewrite ?Hr, ?Hm; repeat split; try done; lia.
Qed.

Lemma counted_markAsSent c w :
  counted r0 m w -> counted r0 m (snd (markAsSent env c w)).
Proof.
  intros (Hrc & Hst & Hm1 & Hm2). rewrite markAsSent_eq. apply counted_save.
  destruct (sentDoc_fields (clock env) c (doc w)) as (_ & Hr & Hm & _).
  unfold counted. simpl. rewrite Hr, Hm, failures_snoc_sent.
  repeat split; try done; lia.
Qed.

Lemma counted_markAsFailed c msg w :
  counted r0 m w -> counted r0 m (snd (markAsFailed env c msg w)).
Proof.
  intros (Hrc & Hst & Hm1 & Hm2). rewrite markAsFailed_eq. apply counted_save.
  destruct (failedDoc_fields c msg (doc w)) as (_ & Hr & Hm & _).
  unfold counted. simpl. rewrite Hr, Hm, failures_snoc_failed.
  repeat split; try done; lia.
Qed.

Lemma counted_settles c w w' : counted r0 m w -> settles env c w w' -> counted r0 m w'.
Proof.
  intros Hw Hs. destruct Hs.
  - done.
  - by apply counted_markAsSent.
  - by apply counted_markAsFailed.
  - by apply counted_markAsFailed, counted_markAsSent.
Qed.

Lemma counted_round w : counted r0 m w -> counted r0 m (snd (sendNotification env w)).
Proof.
  intros Hw. apply round_ind; [| | | |done].
  - by intros w1 s _ Hw1.
  - apply counted_save.
  - intros w1 l (Hrc & Hst & Hm1 & Hm2). unfold counted. simpl.
    rewrite failures_app, failures_started, Nat.add_0_r. repeat split; try done; lia.
  - intros c w1 w' _. apply counted_settles.
Qed.

Lemma counted_retry w : counted r0 m w -> counted r0 m (snd (retry env w)).
Proof. intros Hw. rewrite retry_eq. by apply counted_save. Qed.

Lemma counted_markAsRead w : counted r0 m w -> counted r0 m (snd (markAsRead env w)).
Proof. intros Hw. rewrite markAsRead_eq. by apply counted_save. Qed.
End Counted.

Lemma counted_load n : counted (retryCount n) (maxRetries n) (load n).
Proof. unfold counted, failures. simpl. repeat split; try done; lia. Qed.

Lemma step_retryCount n n' :
  step n n' -> (retryCount n <= retryCount n')%Z /\ maxRetries n' = maxRetries n.
Proof.
  intros Hstep. pose proof (counted_load n) as Hn.
  assert (forall w, counted (retryCount n) (maxRetries n) w ->
            n' = doc w \/ n' = stored w ->
            (retryCount n <= retryCount n')%Z /\ maxRetries n' = maxRetries n) as Hfin.
  { intros w (Hrc & Hst & Hm1 & Hm2) [->| ->]; split; try done; lia. }
  destruct Hstep as [env n w n' -> Hn'|env c n w n' Hc -> Hn'|env n w n' -> Hn'|env n w n' -> Hn'];
    (eapply Hfin; [|done]).
  - by apply counted_round.
  - eapply counted_settles; [done|]. apply sender_settles.
  - by apply counted_retry.
  - by apply counted_markAsRead.
Qed.

(** C3, as amended: along every sequence of operations of the service
    retryCount never decreases and maxRetries stays as it is; a round
    that starts with retryCount below maxRetries and records at most one
    failed channel ends with retryCount at most maxRetries.  (Each failed
    channel adds one, so a round with several failures can pass
    maxRetries.) *)
Theorem retryCount_monotone n n' :
  rtc step n n' ->
  (retryCount n <= retryCount n')%Z /\
  maxRetries n' = maxRetries n /\
  forall env,
    let w := snd (sendNotification env (load n')) in
    (retryCount n' < maxRetries n')%Z -> failures (trace w) <= 1 ->
    (retryCount (doc w) <= maxRetries (doc w))%Z /\
    (retryCount (stored w) <= maxRetries (stored w))%Z.
Proof.
  intros Hsteps.
  assert ((retryCount n <= retryCount n')%Z /\ maxRetries n' = maxRetries n) as [Hle Hmax].
  { induction Hsteps as [|n1 n2 n3 Hstep _ IH]; [done|].
    destruct (step_retryCount _ _ Hstep) as [? Hm]. rewrite <- Hm. split; [lia|tauto]. }
  repeat split; try done.
  all: intros; destruct (counted_round env _ _ _ (counted_load n'))
         as (Hrc & Hst & Hm1 & Hm2); lia.
Qed.

Lemma retryCount_monotone_witness :
  let n := roundOf telegramDown welcome in
  let w := snd (sendNotification telegramDown (load n)) in
  (retryCount welcome <= retryCount n)%Z /\
  maxRetries n = maxRetries welcome /\
  (retryCount (doc w) <= maxRetries (doc w))%Z /\
  (retryCount (stored w) <= maxRetries (stored w))%Z.
Proof.
  destruct (retryCount_monotone welcome (roundOf telegramDown welcome))
    as (Hle & Hmax & Hround).
  - apply rtc_once. eapply step_dispatch; [done|]. by right.
  - split; [exact Hle|]. split; [exact Hmax|].
    apply (Hround telegramDown); vm_compute; [reflexivity|lia].
Defined.

(** C3 as stated fails: the subscription notification (maxRetries 3) whose
    Telegram and SMTP calls are both rejected is pending with retryCount 2
    after its first round and has retryCount 4 after its second. *)
Lemma retryCount_exceeds_maxRetries :
  let first := roundOf bothDown expiring in
  let second := roundOf bothDown first in
  reachable second /\
  due 2000 first /\ retryCount first = 2%Z /\
  retryCount second = 4%Z /\ maxRetries second = 3%Z.
Proof.
  split; [|by repeat split].
  apply reachable_roundOf, reachable_roundOf, reachable_new.
Qed.

(** C4, as amended: every call of markAsFailed adds exactly one to
    retryCount and then sets status to failed if retryCount >= maxRetries
    and to pending otherwise; a round therefore adds to retryCount the
    number of channel failures it records, one per failed channel. *)
Theorem retryCount_counts_failed_channels env :
  (forall c msg w,
     let d := doc (snd (markAsFailed env c msg w)) in
     retryCount d = (retryCount (doc w) + 1)%Z /\
     status d = (if decide (retryCount d >= maxRetries d)%Z
                 then Status.failed else Status.pending)) /\
  (forall n,
     let w := snd (sendNotification env (load n)) in
     retryCount (doc w) = (retryCount n + Z.of_nat (failures (trace w)))%Z).
Proof.
  split.
  - intros c msg w. simpl. rewrite markAsFailed_eq, save_doc. simpl.
    destruct (preSave_fields env (stored w) (failedDoc c msg (doc w)))
      as (_ & _ & -> & -> & -> & _).
    by destruct (failedDoc_fields c msg (doc w)) as (_ & ? & _ & ? & _).
  - intros n. by destruct (counted_round env _ _ _ (counted_load n)) as (? & _).
Qed.

(** C4 as stated fails: in one round of the subscription notification the
    Telegram and the SMTP call are both rejected, and retryCount goes from
    0 to 2. *)
Lemma round_counts_each_failed_channel :
  let w := snd (sendNotification bothDown (load expiring)) in
  retryCount expiring = 0%Z /\ failures (trace w) = 2 /\
  retryCount (doc w) = 2%Z /\ retryCount (stored w) = 2%Z.
Proof. by repeat split. Qed.

(** ** The pending queue (C5) *)

#[global] Instance sortBefore_total : Total sortBefore.
Proof.
  intros a b. unfold sortBefore.
  destruct (priority a), (priority b); simpl; auto; lia.
Qed.

#[global] Instance sortBefore_trans : Transitive sortBefore.
Proof.
  intros a b c. unfold sortBefore.
  destruct (priority a), (priority b), (priority c); simpl; auto; try tauto; lia.
Qed.

Lemma findPending_elem now coll n :
  n ∈ findPending now coll <->
  n ∈ coll /\ status n = Status.pending /\ (scheduledAt n <= now)%Z.
Proof.
  unfold findPending. rewrite merge_sort_Permutation, list_elem_of_filter.
  unfold due. tauto.
Qed.

Lemma findPending_sorted now coll : StronglySorted sortBefore (findPending now coll).
Proof. apply StronglySorted_merge_sort; apply _. Qed.

(** A record of priority high can stand before records of priority high
    only: the stored strings are compared, and "high" is the least of the
    four. *)
Lemma sortBefore_high a b :
  sortBefore a b -> priority a = Priority.high -> priority b = Priority.high.
Proof.
  unfold sortBefore. intros H Ha. rewrite Ha in H.
  by destruct (priority b).
Qed.

Lemma StronglySorted_lookup {A} (R : relation A) l i j a b :
  StronglySorted R l -> l !! i = Some a -> l !! j = Some b -> i < j -> R a b.
Proof.
  intros Hs. revert i j. induction Hs as [|x l Hs IH Hall]; intros i j Hi Hj Hlt.
  - by rewrite lookup_nil in Hi.
  - destruct j as [|j]; [lia|]. simpl in Hj. destruct i as [|i]; simpl in Hi.
    + injection Hi as <-. rewrite Forall_forall in Hall.
      apply Hall. by eapply list_elem_of_lookup_2.
    + apply (IH i j); [done..|lia].
Qed.

Lemma findPending_high_last now coll i j a b :
  findPending now coll !! i = Some a ->
  findPending now coll !! j = Some b ->
  priority a = Priority.high -> priority b <> Priority.high ->
  j < i.
Proof.
  intros Hi Hj Ha Hb.
  destruct (decide (j < i)) as [|Hge]; [done|].
  destruct (decide (i = j)) as [->|Hne]; [congruence|].
  assert (i < j) as Hlt by lia.
  pose proof (findPending_sorted now coll) as Hs.
  destruct Hb. eapply sortBefore_high; [|done].
  by eapply (StronglySorted_lookup _ _ i j).
Qed.

(** C5: [findPending] returns exactly the notifications that are pending
    and due, but it orders them by the priority string, descending, so
    the order is urgent, normal, low, high: every record of priority high
    stands after every record of another priority.  At the failing input,
    a high and a low record with equal scheduledAt, the low one comes
    first. *)
Theorem findPending_orders_by_priority_string :
  (forall now coll n,
     n ∈ findPending now coll <->
     n ∈ coll /\ status n = Status.pending /\ (scheduledAt n <= now)%Z) /\
  (forall now coll i j a b,
     findPending now coll !! i = Some a -> findPending now coll !! j = Some b ->
     priority a = Priority.high -> priority b <> Priority.high -> j < i) /\
  findPending 10 [note 1 Priority.high; note 2 Priority.low] =
    [note 2 Priority.low; note 1 Priority.high] /\
  Priority.rank Priority.low < Priority.rank Priority.high /\
  findPending 10 [note 1 Priority.low; note 2 Priority.normal;
                  note 3 Priority.high; note 4 Priority.urgent] =
    [note 4 Priority.urgent; note 2 Priority.normal;
     note 1 Priority.low; note 3 Priority.high].
Proof.
  split; [apply findPending_elem|].
  split; [apply findPending_high_last|].
  split; [reflexivity|]. split; [simpl; lia|reflexivity].
Qed.

(** ** Starting a round (C6) *)

Lemma preSave_not_sent env p d : status d <> Status.sent -> preSave env p d = d.
Proof.
  intros Hs. unfold preSave. rewrite (bool_decide_eq_false_2 (status d = _)) by done.
  by rewrite andb_false_r.
Qed.

Lemma claim_load env n :
  claim env (load n) =
  mkWorld (set_status Status.sending n)
    (if saveOk env 0 then set_status Status.sending n else n) 1 [].
Proof.
  unfold claim, save. simpl. rewrite preSave_not_sent by done.
  by destruct (saveOk env 0).
Qed.

Lemma giveUp_load env n :
  giveUp env (load n) =
  mkWorld (set_status Status.failed n)
    (if saveOk env 1 then set_status Status.failed n
     else if saveOk env 0 then set_status Status.sending n else n) 2 [].
Proof.
  unfold giveUp. rewrite claim_load. unfold save. simpl.
  rewrite preSave_not_sent by done.
  by destruct (saveOk env 1).
Qed.

(** C6, as amended: the dispatcher begins a round by assigning status =
    sending and saving, whatever the status was: the result of the round,
    the document it leaves in memory and the calls it makes are the same
    for every prior status, and so is the persisted copy unless both the
    first save() and the one of the catch block rejected, in which case
    the store keeps the record as it was. *)
Theorem round_ignores_prior_status env n s :
  let r := sendNotification env (load n) in
  let r' := sendNotification env (load (set_status s n)) in
  fst r' = fst r /\
  doc (snd r') = doc (snd r) /\
  trace (snd r') = trace (snd r) /\
  stored (snd r') =
    (if saveOk env 0 || saveOk env 1 then stored (snd r) else set_status s n).
Proof.
  simpl. rewrite !sendNotification_eq, !claim_load, !giveUp_load. simpl.
  destruct (saveOk env 0), (saveOk env 1); done.
Qed.

(** C6 as stated fails: handed a record that is already sending, or one
    that is cancelled, the dispatcher starts both senders of the welcome
    notification and ends with the record sent. *)
Lemma non_pending_record_is_dispatched :
  let claimed := set_status Status.sending welcome in
  let dropped := set_status Status.cancelled welcome in
  senderCalls (trace (snd (sendNotification allOk (load claimed)))) =
    [Channel.telegram; Channel.inApp] /\
  status (roundOf allOk claimed) = Status.sent /\
  senderCalls (trace (snd (sendNotification allOk (load dropped)))) =
    [Channel.telegram; Channel.inApp] /\
  status (roundOf allOk dropped) = Status.sent.
Proof. by repeat split. Qed.

(** ** The status a round ends in (C7) *)

Section RoundEnd.
Variable env : Env.

Lemma markAsSent_doc c w :
  let d := doc (snd (markAsSent env c w)) in
  let d0 := sentDoc (clock env) c (doc w) in
  status d = status d0 /\ deliveryStatus d = deliveryStatus d0 /\ channels d = channels d0.
Proof.
  simpl. rewrite markAsSent_eq, save_doc. simpl.
  by destruct (preSave_fields env (stored w) (sentDoc (clock env) c (doc w)))
    as (? & ? & ? & _).
Qed.

Lemma markAsFailed_doc c msg w :
  let d := doc (snd (markAsFailed env c msg w)) in
  let d0 := failedDoc c msg (doc w) in
  status d = status d0 /\ deliveryStatus d = deliveryStatus d0 /\ channels d = channels d0.
Proof.
  simpl. rewrite markAsFailed_eq, save_doc. simpl.
  by destruct (preSave_fields env (stored w) (failedDoc c msg (doc w)))
    as (? & ? & ? & _).
Qed.

Lemma markAsFailed_not_sending c msg w :
  status (doc (snd (markAsFailed env c msg w))) <> Status.sending.
Proof.
  destruct (markAsFailed_doc c msg w) as (-> & _).
  destruct (failedDoc_fields c msg (doc w)) as (_ & _ & _ & -> & _).
  by destruct (decide _).
Qed.

(** No operation of a sender clears a sent flag. *)
Lemma settles_flags c w w' c0 :
  settles env c w w' ->
  sent (deliveryStatus (doc w) !!! c0) = true ->
  sent (deliveryStatus (doc w') !!! c0) = true.
Proof.
  assert (forall c w, sent (deliveryStatus (doc w) !!! c0) = true ->
            sent (deliveryStatus (doc (snd (markAsSent env c w))) !!! c0) = true) as Hsent.
  { intros c1 w1 H. destruct (markAsSent_doc c1 w1) as (_ & -> & _).
    destruct (sentDoc_fields (clock env) c1 (doc w1)) as (_ & _ & _ & Hflags).
    apply Hflags. by right. }
  assert (forall c msg w, sent (deliveryStatus (doc w) !!! c0) = true ->
            sent (deliveryStatus (doc (snd (markAsFailed env c msg w))) !!! c0) = true)
    as Hfailed.
  { intros c1 msg w1 H. destruct (markAsFailed_doc c1 msg w1) as (_ & -> & _).
    destruct (failedDoc_fields c1 msg (doc w1)) as (_ & _ & _ & _ & Hflags).
    by rewrite Hflags. }
  intros Hs H. destruct Hs; auto.
Qed.

(** A sender that records its outcome leaves the status [sending] only if
    it found it, set the flag of its channel, and some enabled channel is
    still without its flag. *)
Lemma settles_sending chans c w w' :
  chans !!! c = true -> consistentWorld chans w ->
  (c = Channel.email -> emailSkipped env = false) ->
  settles env c w w' ->
  status (doc w') = Status.sending ->
  status (doc w) = Status.sending /\
  sent (deliveryStatus (doc w') !!! c) = true /\
  ~ allEnabledSent (doc w').
Proof.
  intros Hc Hw Hmail Hs Hst. destruct Hs as [Hemail Hskip|Hok|msg|msg Herr].
  - rewrite (Hmail Hemail) in Hskip. discriminate.
  - destruct Hw as [[Hch [Hfl _]] _].
    destruct (markAsSent_doc c w) as (Hst' & Hds & Hch').
    simpl in *. rewrite Hst' in Hst.
    assert (channels (doc w) !!! c = true) as Hc' by (by rewrite Hch).
    destruct (sentDoc_status (clock env) c (doc w) Hfl Hc') as (_ & Hto & _ & Hkeep).
    destruct (sentDoc_fields (clock env) c (doc w)) as (_ & _ & _ & Hflags).
    split; [|split].
    + rewrite <- Hkeep; [done|]. by rewrite Hst.
    + rewrite Hds. apply Hflags. by left.
    + intros Hall.
      assert (allEnabledSent (sentDoc (clock env) c (doc w))) as Hall'.
      { intros c'. rewrite <- Hch', <- Hds. apply Hall. }
      apply Hto in Hall'. by rewrite Hall' in Hst.
  - by apply markAsFailed_not_sending in Hst.
  - by apply markAsFailed_not_sending in Hst.
Qed.

Lemma settleAll_sending chans l w :
  consistentWorld chans w ->
  (forall c, c ∈ l -> chans !!! c = true) ->
  (Channel.email ∈ l -> emailSkipped env = false) ->
  status (doc (settleAll env l w)) = Status.sending ->
  (forall c, c ∈ l -> sent (deliveryStatus (doc (settleAll env l w)) !!! c) = true) /\
  (forall c, sent (deliveryStatus (doc w) !!! c) = true ->
             sent (deliveryStatus (doc (settleAll env l w)) !!! c) = true) /\
  (l <> [] -> ~ allEnabledSent (doc (settleAll env l w))).
Proof.
  revert w. induction l as [|c l IH]; intros w Hw Hen Hmail Hst.
  - split; [|done]. intros c Hc. by apply elem_of_nil in Hc.
  - simpl in *. set (w1 := snd (sender env c w)) in *.
    pose proof (sender_settles env c w) as Hs. fold w1 in Hs.
    assert (chans !!! c = true) as Hc by (apply Hen; by left).
    assert (consistentWorld chans w1) as Hw1 by (by eapply consistentWorld_settles).
    destruct (IH w1) as (Hl & Hkeep & Hnot); [done| | |done|].
    { intros c' Hc'. apply Hen. by right. }
    { intros Hin. apply Hmail. by right. }
    assert (status (doc w1) = Status.sending) as Hst1.
    { destruct l as [|c' l']; [done|].
      destruct (decide (status (doc w1) = Status.sending)) as [|Hne]; [done|].
      exfalso. revert Hst. generalize (c' :: l'). intros l0.
      apply (settleAll_ind env (fun w' => status (doc w') <> Status.sending)); [|done].
      intros c0 w2 w3 _ Hw2 Hs23 Hst3.
      destruct Hs23 as [| |msg|msg]; [done| | |].
      + destruct (markAsSent_doc c0 w2) as (Hst' & _). rewrite Hst' in Hst3.
        unfold sentDoc in Hst3. simpl in Hst3. by destruct (decide _).
      + by apply markAsFailed_not_sending in Hst3.
      + by apply markAsFailed_not_sending in Hst3. }
    destruct (settles_sending chans c w w1) as (_ & Hflag & Hnot1); try done.
    { intros Hemail. apply Hmail. rewrite Hemail. by left. }
    split; [|split].
    + intros c' [->|Hc']%elem_of_cons; [by apply Hkeep|by apply Hl].
    + intros c' Hc'. apply Hkeep. by eapply settles_flags.
    + intros _. destruct l as [|c' l']; [done|]. by apply Hnot.
Qed.

Lemma save_stored_eq_doc w :
  saveOk env (saves w) = true -> stored (snd (save env w)) = doc (snd (save env w)).
Proof. intros Hok. by rewrite save_doc, save_stored, Hok. Qed.

Lemma settles_stored_eq_doc c w w' :
  (forall k, saveOk env k = true) ->
  stored w = doc w -> settles env c w w' -> stored w' = doc w'.
Proof.
  intros Hok Hw Hs.
  destruct Hs; [done|rewrite markAsSent_eq|rewrite markAsFailed_eq..];
    by apply save_stored_eq_doc.
Qed.

Lemma round_stored_eq_doc n :
  (forall k, saveOk env k = true) ->
  let w := snd (sendNotification env (load n)) in
  stored w = doc w.
Proof.
  intros Hok. simpl. rewrite sendNotification_eq, claim_load. simpl.
  rewrite !Hok. simpl.
  apply (settleAll_ind env (fun w => stored w = doc w)); [|done].
  intros c w1 w' _. by apply settles_stored_eq_doc.
Qed.

End RoundEnd.

(** C7, as amended: after a dispatch round of a record whose sent flags
    lie on enabled channels only, with at least one enabled channel, and in
    which every started sender records its outcome (the email sender does
    not return early), the status of the document is not sending, and
    neither is the persisted status when every save() resolved.  (Each
    sender sets the status itself, through markAsSent or markAsFailed, as
    it completes; nothing is computed after the senders have settled.) *)
Theorem round_does_not_end_sending env n :
  flagsEnabled n ->
  (exists c, channels n !!! c = true) ->
  (channels n !!! Channel.email = true -> emailSkipped env = false) ->
  let w := snd (sendNotification env (load n)) in
  status (doc w) <> Status.sending /\
  ((forall k, saveOk env k = true) -> status (stored w) <> Status.sending).
Proof.
  intros Hfl [c0 Hc0] Hmail w.
  assert (status (doc w) <> Status.sending) as Hdoc.
  { unfold w. rewrite sendNotification_eq, claim_load, giveUp_load. simpl.
    destruct (saveOk env 0); simpl; [|done].
    set (l := permute (settle env) (started n)).
    set (w0 := mkWorld _ _ _ _).
    assert (forall c, c ∈ l <-> channels n !!! c = true) as Hl.
    { intros c. unfold l. by rewrite permute_Permutation, elem_of_started. }
    assert (consistentWorld (channels n) w0) as Hw0.
    { repeat split; try done; by apply Hfl. }
    intros Hst.
    destruct (settleAll_sending env (channels n) l w0) as (Hall & _ & Hnot);
      [done|by intros c; apply Hl|by intros Hin; apply Hmail, Hl|done|].
    apply Hnot.
    - intros Hnil. apply Hl in Hc0. rewrite Hnil in Hc0. by apply elem_of_nil in Hc0.
    - intros c Hc.
      assert (consistentWorld (channels n) (settleAll env l w0)) as [[Hch _] _].
      { apply (settleAll_ind env (consistentWorld (channels n))); [|done].
        intros c1 w1 w' Hc1 Hw1. apply consistentWorld_settles; [by apply Hl|done]. }
      rewrite Hch in Hc. by apply Hall, Hl. }
  split; [done|]. intros Hok.
  pose proof (round_stored_eq_doc env n Hok) as Heq. simpl in Heq.
  unfold w in *. by rewrite Heq.
Qed.

Lemma round_does_not_end_sending_witness :
  let w := snd (sendNotification telegramDown (load welcome)) in
  status (doc w) <> Status.sending /\ status (stored w) <> Status.sending.
Proof.
  destruct (round_does_not_end_sending telegramDown welcome) as [Hdoc Hstored].
  - by intros [].
  - by exists Channel.telegram.
  - discriminate.
  - split; [exact Hdoc|]. apply Hstored. reflexivity.
Defined.

(** C7 as stated fails: a round of a notification with no enabled channel
    starts no sender and leaves the record, in memory and in the store,
    with status sending; it is not treated as sent. *)
Lemma round_without_channels_ends_sending :
  let w := snd (sendNotification allOk (load silent)) in
  senderCalls (trace w) = [] /\
  status (doc w) = Status.sending /\ status (stored w) = Status.sending.
Proof. by repeat split. Qed.

(** ** The early return of the email sender (C8) *)

(** C8: when the user is not found or has switched email notifications
    off, the email sender returns false and leaves the world as it was: no
    error is recorded, retryCount does not move and the sent flag is not
    set.  At the failing input, a round of an email-only notification for
    a user who opted out, the record stays as the claim step left it,
    status sending included. *)
Theorem email_sender_returns_without_recording :
  (forall env w, emailSkipped env = true -> sendEmailNotification env w = (Ok false, w)) /\
  let w := snd (sendNotification optedOut (load emailOnly)) in
  senderCalls (trace w) = [Channel.email] /\
  trace w = [SenderCalled Channel.email] /\
  deliveryStatus (doc w) !!! Channel.email = defaultEntry /\
  retryCount (doc w) = 0%Z /\
  status (doc w) = Status.sending /\
  stored w = doc w.
Proof.
  split; [apply sendEmailNotification_skipped|].
  by repeat split.
Qed.

(** ** The sweep (C9) *)

Lemma sendNotification_result env n :
  fst (sendNotification env (load n)) =
  if throws env then Throw saveError else Ok (saveOk env 0).
Proof.
  rewrite sendNotification_eq. unfold throws. simpl.
  by destruct (saveOk env 0), (saveOk env 1).
Qed.

Lemma sweepLoop_all envs k l :
  (forall j, j < length l -> throws (envs (k + j)) = false) ->
  (dispatched (sweepLoop envs k l)).*1 = l /\ logged (sweepLoop envs k l) = None.
Proof.
  revert k. induction l as [|n l IH]; intros k Hno; [done|].
  simpl. pose proof (sendNotification_result (envs k) n) as Hr.
  assert (throws (envs k) = false) as Hk.
  { rewrite <- (Nat.add_0_r k). apply Hno. simpl. lia. }
  rewrite Hk in Hr.
  destruct (sendNotification (envs k) (load n)) as [[b|msg] w]; [|done].
  destruct (IH (S k)) as [Hd Hl].
  { intros j Hj. replace (S k + j) with (k + S j) by lia. apply Hno. simpl. lia. }
  split; [|done]. cbn [dispatched]. rewrite fmap_cons. by f_equal.
Qed.

Lemma sweepLoop_throw envs k l i :
  i < length l ->
  throws (envs (k + i)) = true ->
  (forall j, j < i -> throws (envs (k + j)) = false) ->
  (dispatched (sweepLoop envs k l)).*1 = take (S i) l /\
  logged (sweepLoop envs k l) = Some saveError.
Proof.
  revert k i. induction l as [|n l IH]; intros k i Hi Hthrow Hno; [simpl in Hi; lia|].
  simpl. pose proof (sendNotification_result (envs k) n) as Hr.
  destruct i as [|i].
  - rewrite Nat.add_0_r in Hthrow. rewrite Hthrow in Hr.
    destruct (sendNotification (envs k) (load n)) as [[b|msg] w]; [done|].
    simpl in Hr. injection Hr as ->. by rewrite take_0.
  - assert (throws (envs k) = false) as Hk.
    { rewrite <- (Nat.add_0_r k). apply Hno. lia. }
    rewrite Hk in Hr.
    destruct (sendNotification (envs k) (load n)) as [[b|msg] w]; [|done].
    destruct (IH (S k) i) as [Hd Hl].
    { simpl in Hi. lia. }
    { by replace (S k + i) with (k + S i) by lia. }
    { intros j Hj. replace (S k + j) with (k + S j) by lia. apply Hno. lia. }
    split; [|done]. cbn [dispatched]. rewrite fmap_cons. simpl. by f_equal.
Qed.

(** C9, as amended: a sweep hands the notifications returned by
    findPending to the dispatcher in order for as long as no dispatch
    throws.  A dispatch whose failure sendNotification handles itself
    (failed channels; a rejected first save() followed by a successful
    save() in its catch block) does not end the sweep.  A dispatch that
    throws (both of these saves rejected) ends it: the error is logged by
    the one try/catch around the loop and the notifications after it are
    not handed to the dispatcher. *)
Theorem sweep_ends_at_first_throw envs now coll :
  let l := findPending now coll in
  let s := processPendingNotifications None envs now coll in
  ((forall j, j < length l -> throws (envs j) = false) ->
   (dispatched s).*1 = l /\ logged s = None) /\
  (forall i, i < length l -> throws (envs i) = true ->
     (forall j, j < i -> throws (envs j) = false) ->
     (dispatched s).*1 = take (S i) l /\ logged s = Some saveError).
Proof.
  simpl. split.
  - intros Hno. by apply sweepLoop_all.
  - intros i Hi Hthrow Hno. by apply sweepLoop_throw.
Qed.

Lemma sweep_ends_at_first_throw_witness :
  (dispatched (processPendingNotifications None storeDownFirst 10
                 [note 1 Priority.urgent; note 2 Priority.normal])).*1 =
    take 1 (findPending 10 [note 1 Priority.urgent; note 2 Priority.normal]) /\
  logged (processPendingNotifications None storeDownFirst 10
            [note 1 Priority.urgent; note 2 Priority.normal]) = Some saveError.
Proof.
  apply (proj2 (sweep_ends_at_first_throw storeDownFirst 10
                  [note 1 Priority.urgent; note 2 Priority.normal]) 0).
  - vm_compute. lia.
  - reflexivity.
  - intros j Hj. lia.
Defined.

(** C9 as stated fails: in a sweep over two due notifications the store
    rejects the saves of the first dispatch, which throws; the second
    notification is never handed to the dispatcher. *)
Lemma throwing_dispatch_ends_sweep :
  let coll := [note 1 Priority.urgent; note 2 Priority.normal] in
  let s := processPendingNotifications None storeDownFirst 10 coll in
  findPending 10 coll = coll /\
  (dispatched s).*1 = [note 1 Priority.urgent] /\
  logged s = Some saveError.
Proof. by repeat split. Qed.

(** ** Retrying (C10) *)

(** C10: for every notification, whatever its status, retry() sets status
    to pending and scheduledAt to the current time, so that the record is
    selected by findPending at that time and at any later one; the store
    holds the retried record when the save() resolved. *)
Theorem retry_makes_pending env n :
  let w := snd (retry env (load n)) in
  status (doc w) = Status.pending /\
  scheduledAt (doc w) = clock env /\
  retryCount (doc w) = retryCount n /\
  deliveryStatus (doc w) = deliveryStatus n /\
  stored w = (if saveOk env 0 then doc w else n) /\
  forall now coll,
    (clock env <= now)%Z -> doc w ∈ coll -> doc w ∈ findPending now coll.
Proof.
  simpl. rewrite retry_eq, save_doc, save_stored. simpl.
  rewrite preSave_not_sent by done.
  repeat split; try done.
  intros now coll Hnow Hin. apply findPending_elem. by repeat split.
Qed.

(** * Further properties of the delivery engine *)

(** ** Fields a round leaves alone *)

Section Frame.
Variable env : Env.
Variable n : Notification.

Lemma sameRecord_preSave p d : sameRecord n d -> sameRecord n (preSave env p d).
Proof. unfold preSave. by destruct (_ && _). Qed.

Lemma sameRecord_sentDoc c d : sameRecord n d -> sameRecord n (sentDoc (clock env) c d).
Proof. unfold sentDoc. simpl. by destruct (decide _). Qed.

Lemma sameRecord_failedDoc c msg d : sameRecord n d -> sameRecord n (failedDoc c msg d).
Proof. unfold failedDoc. simpl. by destruct (decide _). Qed.

(** A property of documents that the hook and the two mark methods keep
    holds of both copies of the document after a sender has run. *)
Lemma settles_both (P : Notification -> Prop) c w w' :
  (forall p d, P d -> P (preSave env p d)) ->
  (forall c d, P d -> P (sentDoc (clock env) c d)) ->
  (forall c msg d, P d -> P (failedDoc c msg d)) ->
  settles env c w w' ->
  P (doc w) /\ P (stored w) -> P (doc w') /\ P (stored w').
Proof.
  intros Hpre Hsent Hfailed Hset Hw.
  assert (forall w1, P (doc w1) /\ P (stored w1) ->
            P (doc (snd (save env w1))) /\ P (stored (snd (save env w1)))) as Hsave.
  { intros w1 [Hd Hs]. rewrite save_doc, save_stored.
    split; [by apply Hpre|]. destruct (saveOk env _); [by apply Hpre|done]. }
  assert (forall c w1, P (doc w1) /\ P (stored w1) ->
            P (doc (snd (markAsSent env c w1))) /\
            P (stored (snd (markAsSent env c w1)))) as Hms.
  { intros c1 w1 [Hd Hs]. rewrite markAsSent_eq. apply Hsave. simpl.
    split; [by apply Hsent|done]. }
  assert (forall c msg w1, P (doc w1) /\ P (stored w1) ->
            P (doc (snd (markAsFailed env c msg w1))) /\
            P (stored (snd (markAsFailed env c msg w1)))) as Hmf.
  { intros c1 msg w1 [Hd Hs]. rewrite markAsFailed_eq. apply Hsave. simpl.
    split; [by apply Hfailed|done]. }
  destruct Hset; auto.
Qed.

(** If an assignment of a status other than [sent] keeps it too, it holds
    of both copies after a round. *)
Lemma round_both (P : Notification -> Prop) w :
  (forall p d, P d -> P (preSave env p d)) ->
  (forall c d, P d -> P (sentDoc (clock env) c d)) ->
  (forall c msg d, P d -> P (failedDoc c msg d)) ->
  (forall s d, s <> Status.sent -> P d -> P (set_status s d)) ->
  P (doc w) /\ P (stored w) ->
  let w' := snd (sendNotification env w) in
  P (doc w') /\ P (stored w').
Proof.
  intros Hpre Hsent Hfailed Hstatus Hw. simpl.
  apply (round_ind env (fun w1 => P (doc w1) /\ P (stored w1))); [| | | |done].
  - intros w1 s Hs [Hd Hst]. split; [by apply Hstatus|done].
  - intros w1 [Hd Hs]. rewrite save_doc, save_stored.
    split; [by apply Hpre|]. destruct (saveOk env _); [by apply Hpre|done].
  - by intros w1 l.
  - intros c w1 w' _ Hw1 Hset. by apply (settles_both P c w1 w').
Qed.

(** And if [retry] and [markAsRead] keep it as well, every operation of
    the service does. *)
Lemma both_retry (P : Notification -> Prop) w :
  (forall p d, P d -> P (preSave env p d)) ->
  (forall d, P d -> P (set_scheduledAt (clock env) (set_status Status.pending d))) ->
  P (doc w) /\ P (stored w) ->
  P (doc (snd (retry env w))) /\ P (stored (snd (retry env w))).
Proof.
  intros Hpre Hretry [Hd Hs]. rewrite retry_eq, save_doc, save_stored. simpl.
  split; [by apply Hpre, Hretry|].
  destruct (saveOk env _); [by apply Hpre, Hretry|done].
Qed.

Lemma both_markAsRead (P : Notification -> Prop) w :
  (forall p d, P d -> P (preSave env p d)) ->
  (forall d, P d -> P (readDoc (clock env) d)) ->
  P (doc w) /\ P (stored w) ->
  P (doc (snd (markAsRead env w))) /\ P (stored (snd (markAsRead env w))).
Proof.
  intros Hpre Hread [Hd Hs]. rewrite markAsRead_eq, save_doc, save_stored. simpl.
  split; [by apply Hpre, Hread|].
  destruct (saveOk env _); [by apply Hpre, Hread|done].
Qed.
End Frame.

Lemma step_both (P : Notification -> Prop) n n' :
  (forall env p d, P d -> P (preSave env p d)) ->
  (forall now c d, P d -> P (sentDoc now c d)) ->
  (forall c msg d, P d -> P (failedDoc c msg d)) ->
  (forall s d, s <> Status.sent -> P d -> P (set_status s d)) ->
  (forall now d, P d -> P (set_scheduledAt now d)) ->
  (forall now d, P d -> P (readDoc now d)) ->
  step n n' -> P n -> P n'.
Proof.
  intros Hpre Hsent Hfailed Hstatus Hsched Hread Hstep Hn.
  assert (forall w, P (doc w) /\ P (stored w) -> n' = doc w \/ n' = stored w -> P n')
    as Hfin by (by intros w [? ?] [->| ->]).
  destruct Hstep as [env n w n' -> Hn'|env c n w n' Hc -> Hn'|env n w n' -> Hn'|env n w n' -> Hn'];
    (eapply Hfin; [|done]).
  - apply round_both; auto.
  - eapply (settles_both env P c (load n)); auto. apply sender_settles.
  - apply both_retry; auto.
  - apply both_markAsRead; auto.
Qed.

Lemma steps_both (P : Notification -> Prop) n n' :
  (forall env p d, P d -> P (preSave env p d)) ->
  (forall now c d, P d -> P (sentDoc now c d)) ->
  (forall c msg d, P d -> P (failedDoc c msg d)) ->
  (forall s d, s <> Status.sent -> P d -> P (set_status s d)) ->
  (forall now d, P d -> P (set_scheduledAt now d)) ->
  (forall now d, P d -> P (readDoc now d)) ->
  rtc step n n' -> P n -> P n'.
Proof.
  intros Hpre Hsent Hfailed Hstatus Hsched Hread Hsteps.
  induction Hsteps as [|n1 n2 n3 Hstep _ IH]; [done|].
  intros Hn1. apply IH. by apply (step_both P n1 n2).
Qed.

(** X1: a dispatch round never writes id, userId, channels, priority,
    scheduledAt, readAt or maxRetries, in memory or in the store; as
    scheduledAt is not advanced, a due record that the round leaves pending
    is due again at once. *)
Theorem round_leaves_schedule env n :
  let w := snd (sendNotification env (load n)) in
  sameRecord n (doc w) /\ sameRecord n (stored w) /\
  (forall now, due now n -> status (stored w) = Status.pending -> due now (stored w)).
Proof.
  simpl.
  destruct (round_both env (sameRecord n) (load n)) as [Hd Hs].
  - apply sameRecord_preSave.
  - apply sameRecord_sentDoc.
  - apply sameRecord_failedDoc.
  - by intros s d _.
  - by split.
  - split; [done|]. split; [done|].
    intros now [_ Hdue] Hst. split; [done|].
    destruct Hs as (_ & _ & _ & _ & -> & _). done.
Qed.

(** ** Sent flags are never cleared *)

Lemma keepsFlags_sentDoc n now c d : keepsFlags n d -> keepsFlags n (sentDoc now c d).
Proof.
  intros H c' Hc'. destruct (sentDoc_fields now c d) as (_ & _ & _ & Hflags).
  apply Hflags. right. by apply H.
Qed.

Lemma keepsFlags_failedDoc n c msg d : keepsFlags n d -> keepsFlags n (failedDoc c msg d).
Proof.
  intros H c' Hc'. destruct (failedDoc_fields c msg d) as (_ & _ & _ & _ & Hflags).
  rewrite Hflags. by apply H.
Qed.

Lemma keepsFlags_readDoc n now d : keepsFlags n d -> keepsFlags n (readDoc now d).
Proof. intros H c' Hc'. specialize (H c' Hc'). by destruct c'. Qed.

(** X2: no operation of the service clears a sent flag: a channel marked
    sent stays marked sent along every sequence of dispatch rounds, sender
    runs, retry() and markAsRead() calls. *)
Theorem sent_flags_are_kept n n' :
  rtc step n n' -> keepsFlags n n'.
Proof.
  intros Hsteps.
  apply (steps_both (keepsFlags n) n n'); [| | | | | |done|by intros c].
  - intros env p d H. unfold preSave. by destruct (_ && _).
  - apply keepsFlags_sentDoc.
  - apply keepsFlags_failedDoc.
  - by intros s d _.
  - by intros now d.
  - apply keepsFlags_readDoc.
Qed.

Lemma sent_flags_are_kept_witness :
  keepsFlags (roundOf telegramDown welcome) (roundOf bothDown (roundOf telegramDown welcome)).
Proof.
  apply sent_flags_are_kept.
  apply rtc_once. eapply step_dispatch; [done|]. by right.
Defined.

(** ** Time stamps of what is marked sent *)

Lemma stamped_sentDoc now c d : stamped d -> stamped (sentDoc now c d).
Proof.
  intros [Hst Hfl].
  assert (forall c',
    sent ((<[c := set_chSentAt now (set_sent true (deliveryStatus d !!! c))]>
             (deliveryStatus d)) !!! c') = true ->
    is_Some (chSentAt ((<[c := set_chSentAt now (set_sent true (deliveryStatus d !!! c))]>
             (deliveryStatus d)) !!! c'))) as Hflag.
  { intros c'. destruct (decide (c = c')) as [->|Hne].
    - by rewrite lookup_insert_same.
    - rewrite lookup_insert_other by done. apply Hfl. }
  unfold sentDoc. simpl. destruct (decide _); by split.
Qed.

Lemma stamped_failedDoc c msg d : stamped d -> stamped (failedDoc c msg d).
Proof.
  intros [Hst Hfl].
  assert (forall c',
    sent ((<[c := recordError c msg (deliveryStatus d !!! c)]> (deliveryStatus d)) !!! c') = true ->
    is_Some (chSentAt ((<[c := recordError c msg (deliveryStatus d !!! c)]>
                         (deliveryStatus d)) !!! c'))) as Hflag.
  { intros c'. destruct (decide (c = c')) as [->|Hne].
    - rewrite lookup_insert_same.
      destruct (recordError_fields c' msg (deliveryStatus d !!! c')) as (-> & -> & _).
      apply Hfl.
    - rewrite lookup_insert_other by done. apply Hfl. }
  unfold failedDoc. simpl. destruct (decide _); by split.
Qed.

Lemma stamped_readDoc now d : stamped d -> stamped (readDoc now d).
Proof.
  intros [Hst Hfl]. split; [done|].
  intros c' Hc'. specialize (Hfl c'). by destruct c'; simpl in *; auto.
Qed.

(** X3: in every state reached from a newly created notification, a
    record with status sent has its sentAt, and every channel marked sent
    has the sentAt of its deliveryStatus entry. *)
Theorem reachable_stamped n : reachable n -> stamped n.
Proof.
  intros (id & uid & chans & prio & t & mr & Hsteps).
  apply (steps_both stamped (newNotification id uid chans prio t mr) n);
    [| | | | | |done|].
  - intros env p d [Hst Hfl]. unfold preSave. destruct (_ && _); by split.
  - apply stamped_sentDoc.
  - apply stamped_failedDoc.
  - by intros s d Hs [_ Hfl].
  - by intros now d.
  - apply stamped_readDoc.
  - split; [done|]. by intros [].
Qed.

Lemma reachable_stamped_witness : stamped (roundOf allOk welcome).
Proof. apply reachable_stamped, reachable_roundOf, reachable_new. Defined.

(** ** A round in which everything resolves *)

Section AllResolve.
Variable env : Env.

Lemma mark_or_fail_succeeds c w :
  saveOk env (saves w) = true ->
  tryCatch (markAsSent env c;; mret true)
    (fun msg => markAsFailed env c msg;; mret false) w =
  (Ok true, snd (markAsSent env c w)).
Proof.
  intros Hok. pose proof (markAsSent_result env c w) as Hr. rewrite Hok in Hr.
  unfold tryCatch, mbind, M_bind, bind.
  destruct (markAsSent env c w) as [[[]|msg] w1]; simpl in *; [done|discriminate].
Qed.

Lemma sender_succeeds n c w :
  allResolve env n -> channels n !!! c = true ->
  sender env c w = (Ok true, snd (markAsSent env c w)).
Proof.
  intros (Hsave & Htg & Hmail) Hc. destruct c; simpl.
  - unfold sendTelegramNotification. rewrite (Htg Hc), tryCatch_external_ok.
    by apply mark_or_fail_succeeds.
  - destruct (Hmail Hc) as (Hsend & u & Hu & Hopt).
    unfold sendEmailNotification. rewrite Hu, tryCatch_lift_ok, Hopt, Hsend. simpl.
    rewrite tryCatch_external_ok. by apply mark_or_fail_succeeds.
  - exact (mark_or_fail_succeeds Channel.push w (Hsave _)).
  - exact (mark_or_fail_succeeds Channel.inApp w (Hsave _)).
Qed.

Lemma settleAll_each (P : World -> Prop) l w :
  (forall c w1, c ∈ l -> P w1 -> P (snd (sender env c w1))) ->
  P w -> P (settleAll env l w).
Proof.
  revert w. induction l as [|c l IH]; intros w Hstep Hw; [done|].
  simpl. apply IH.
  - intros c' w1 Hc'. apply Hstep. by right.
  - apply Hstep; [by left|done].
Qed.

Lemma delivering_markAsSent r c w :
  saveOk env (saves w) = true ->
  delivering env r w -> delivering env r (snd (markAsSent env c w)).
Proof.
  intros Hok (Hst & Hf & Hr & Hs & Hat). unfold delivering.
  rewrite markAsSent_trace, failures_snoc_sent.
  rewrite markAsSent_eq, save_stored, save_doc. simpl. rewrite Hok.
  split; [done|]. split; [done|].
  set (d := sentDoc (clock env) c (doc w)).
  assert (retryCount d = r /\
          (status d = Status.sending \/ status d = Status.sent) /\
          (status d = Status.sent -> sentAt d = Some (clock env))) as (Hr' & Hs' & Hat').
  { unfold d, sentDoc. simpl. destruct (decide _); simpl; auto. }
  unfold preSave. destruct (_ && _); simpl; auto.
Qed.

Lemma settleAll_not_sending chans l w :
  consistentWorld chans w ->
  (forall c, c ∈ l <-> chans !!! c = true) ->
  l <> [] ->
  (Channel.email ∈ l -> emailSkipped env = false) ->
  status (doc (settleAll env l w)) <> Status.sending.
Proof.
  intros Hw Hl Hne Hmail Hst.
  destruct (settleAll_sending env chans l w) as (Hall & _ & Hnot);
    [done|by intros c; apply Hl|done|done|].
  apply Hnot; [done|]. intros c Hc.
  assert (consistentWorld chans (settleAll env l w)) as [[Hch _] _].
  { apply (settleAll_ind env (consistentWorld chans)); [|done].
    intros c1 w1 w' Hc1 Hw1. apply consistentWorld_settles; [by apply Hl|done]. }
  rewrite Hch in Hc. by apply Hall, Hl.
Qed.
End AllResolve.

(** X4: a round of a record with exactly one enabled channel, where no
    save() is called while another is in flight: when the store accepts
    every save(), the Telegram or SMTP call of that channel resolves and
    the user receives email, the round returns true, calls markAsSent for
    the channel and nothing else, and leaves the record, in memory and in
    the store, with status sent, the channel marked sent, sentAt set to
    the current time and retryCount as it was (sent flags being on enabled
    channels only). *)
Theorem round_delivers env n c :
  allResolve env n -> flagsEnabled n -> started n = [c] ->
  let r := sendNotification env (load n) in
  fst r = Ok true /\
  trace (snd r) = [SenderCalled c; MarkedSent c] /\
  status (doc (snd r)) = Status.sent /\
  allEnabledSent (doc (snd r)) /\
  sentAt (doc (snd r)) = Some (clock env) /\
  retryCount (doc (snd r)) = retryCount n /\
  failures (trace (snd r)) = 0 /\
  stored (snd r) = doc (snd r).
Proof.
  intros Hres Hfl Hone. simpl.
  assert (channels n !!! c = true) as Hc0.
  { apply elem_of_started. rewrite Hone. by left. }
  rewrite sendNotification_eq, claim_load. simpl.
  pose proof Hres as (Hsave & _ & Hmail). rewrite Hsave. simpl.
  assert (permute (settle env) (started n) = [c]) as ->.
  { rewrite Hone. by destruct (settle env) as [|[|k] [|k' code]]. }
  rewrite Hone. simpl.
  set (w0 := mkWorld _ _ _ _).
  assert (consistentWorld (channels n) w0) as Hw0.
  { repeat split; try done; by apply Hfl. }
  assert (delivering env (retryCount n) w0) as Hd0.
  { unfold delivering, w0. simpl. repeat split; auto. done. }
  rewrite (sender_succeeds env n c w0) by done. simpl.
  pose proof (delivering_markAsSent env _ c w0 (Hsave _) Hd0) as Hd.
  pose proof (consistentWorld_markAsSent env _ c w0 Hc0 Hw0) as Hw.
  assert (status (doc (snd (markAsSent env c w0))) <> Status.sending) as Hns.
  { replace (snd (markAsSent env c w0)) with (settleAll env [c] w0)
      by (simpl; by rewrite (sender_succeeds env n c w0)).
    apply (settleAll_not_sending env (channels n)); [done| |done|].
    - intros c'. by rewrite <- Hone, elem_of_started.
    - intros Hin. apply list_elem_of_singleton in Hin as <-.
      destruct (Hmail Hc0) as (_ & u & Hu & Hopt).
      unfold emailSkipped. by rewrite Hu, Hopt. }
  destruct Hd as (Hst & Hf & Hr & [Hs|Hs] & Hat); [done|].
  destruct Hw as [[_ [_ Hsound]] _].
  split; [done|]. split; [by rewrite markAsSent_trace|].
  repeat split; auto.
Qed.

Lemma round_delivers_witness :
  let r := sendNotification allOk (load emailOnly) in
  fst r = Ok true /\
  trace (snd r) = [SenderCalled Channel.email; MarkedSent Channel.email] /\
  status (doc (snd r)) = Status.sent /\
  allEnabledSent (doc (snd r)) /\
  sentAt (doc (snd r)) = Some (clock allOk) /\
  retryCount (doc (snd r)) = retryCount emailOnly /\
  failures (trace (snd r)) = 0 /\
  stored (snd r) = doc (snd r).
Proof.
  apply (round_delivers allOk emailOnly Channel.email).
  - split; [done|]. split; [done|]. intros _. split; [done|]. by eexists.
  - by intros [].
  - reflexivity.
Defined.

(** ** What a round returns, and a round whose first save is rejected *)

(** X5: sendNotification returns true exactly when its first save()
    resolved, whatever became of the channels (with every enabled channel
    failing it still returns true); it returns false when that save was
    rejected and the save() of its catch block resolved, and throws when
    both were rejected.  Failures of channels and of the saves made by the
    senders never reach its caller. *)
Theorem round_result env w :
  fst (sendNotification env w) =
    (if saveOk env (saves w) then Ok true
     else if saveOk env (S (saves w)) then Ok false
     else Throw saveError) /\
  (saveOk bothDown 0 = true /\
   fst (sendNotification bothDown (load expiring)) = Ok true /\
   failures (trace (snd (sendNotification bothDown (load expiring)))) = 2).
Proof.
  split; [|by repeat split].
  rewrite sendNotification_eq. by destruct (saveOk env (saves w)).
Qed.

(** X6: when the first save() of a round is rejected, no sender is
    started and nothing is counted: the document in memory is the record
    with status failed, retryCount and deliveryStatus untouched, and the
    store holds that copy if the save() of the catch block resolved and
    the record as it was otherwise.  A pending record thus becomes failed,
    which no sweep selects, by one rejected save. *)
Theorem rejected_first_save_fails_record env n :
  saveOk env 0 = false ->
  let w := snd (sendNotification env (load n)) in
  trace w = [] /\
  doc w = set_status Status.failed n /\
  stored w = (if saveOk env 1 then set_status Status.failed n else n) /\
  (forall now, ~ due now (doc w)).
Proof.
  intros Hrej. simpl. rewrite sendNotification_eq, giveUp_load. simpl.
  rewrite Hrej. simpl. repeat split; try done.
  intros now [Hst _]. discriminate.
Qed.

Lemma rejected_first_save_fails_record_witness :
  let w := snd (sendNotification storeDown (load welcome)) in
  trace w = [] /\
  doc w = set_status Status.failed welcome /\
  stored w = (if saveOk storeDown 1 then set_status Status.failed welcome else welcome) /\
  (forall now, ~ due now (doc w)).
Proof. apply (rejected_first_save_fails_record storeDown welcome). reflexivity. Defined.

(** ** The virtual field canRetry *)

Lemma canRetry_false d : exhaustedIfFailed d -> canRetry d = false.
Proof.
  unfold exhaustedIfFailed, canRetry. intros H.
  destruct (decide (status d = Status.failed)) as [Hs|Hs].
  - rewrite (bool_decide_eq_false_2 (retryCount d < maxRetries d)%Z).
    + apply andb_false_r.
    + specialize (H Hs). lia.
  - by rewrite (bool_decide_eq_false_2 (status d = Status.failed)).
Qed.

Lemma exhaustedIfFailed_sentDoc now c d :
  exhaustedIfFailed d -> exhaustedIfFailed (sentDoc now c d).
Proof. unfold sentDoc, exhaustedIfFailed. simpl. by destruct (decide _). Qed.

Lemma exhaustedIfFailed_failedDoc c msg d : exhaustedIfFailed (failedDoc c msg d).
Proof.
  unfold exhaustedIfFailed.
  destruct (failedDoc_fields c msg d) as (_ & _ & _ & -> & _).
  by destruct (decide _).
Qed.

(** X7: canRetry (status failed and retryCount < maxRetries) is false
    after every call of markAsFailed, and false in both copies of the
    document after every round whose first save() resolved: markAsFailed
    sets failed only once retryCount has reached maxRetries.  The only
    failed records that can be retried by this test are those that a
    rejected first save() made failed. *)
Theorem canRetry_needs_rejected_save env :
  (forall c msg w, canRetry (doc (snd (markAsFailed env c msg w))) = false) /\
  (forall n,
     let w := snd (sendNotification env (load n)) in
     canRetry (doc w) = true \/ canRetry (stored w) = true -> saveOk env 0 = false).
Proof.
  assert (forall p d, exhaustedIfFailed d -> exhaustedIfFailed (preSave env p d)) as Hpre.
  { intros p d. unfold preSave. by destruct (_ && _). }
  split.
  - intros c msg w. apply canRetry_false.
    rewrite markAsFailed_eq, save_doc. simpl. apply Hpre, exhaustedIfFailed_failedDoc.
  - intros n. simpl. rewrite sendNotification_eq, claim_load. simpl.
    destruct (saveOk env 0); [|done]. simpl. intros Hcan. exfalso.
    set (w0 := mkWorld _ _ _ _) in Hcan.
    assert (exhaustedIfFailed (doc (settleAll env (permute (settle env) (started n)) w0)) /\
            exhaustedIfFailed (stored (settleAll env (permute (settle env) (started n)) w0)))
      as [Hd Hs].
    { apply (settleAll_ind env
               (fun w => exhaustedIfFailed (doc w) /\ exhaustedIfFailed (stored w)));
        [|by split].
      intros c w1 w' _ Hw1 Hset.
      apply (settles_both env exhaustedIfFailed c w1 w'); try done.
      - intros c1 d. apply exhaustedIfFailed_sentDoc.
      - intros c1 msg d _. apply exhaustedIfFailed_failedDoc. }
    apply canRetry_false in Hd, Hs. destruct Hcan; congruence.
Qed.

(** ** Recorded errors *)

Lemma keepsErrors_sentDoc n now c d : keepsErrors n d -> keepsErrors n (sentDoc now c d).
Proof.
  intros H c' Hc'. specialize (H c' Hc'). unfold sentDoc. simpl.
  assert (error ((<[c := set_chSentAt now (set_sent true (deliveryStatus d !!! c))]>
                   (deliveryStatus d)) !!! c') = error (deliveryStatus d !!! c')) as Heq.
  { destruct (decide (c = c')) as [->|Hne].
    - by rewrite lookup_insert_same.
    - by rewrite lookup_insert_other. }
  destruct (decide _); simpl; by rewrite Heq.
Qed.

Lemma keepsErrors_failedDoc n c msg d : keepsErrors n d -> keepsErrors n (failedDoc c msg d).
Proof.
  intros H c' Hc'. specialize (H c' Hc'). unfold failedDoc. simpl.
  assert (is_Some (error ((<[c := recordError c msg (deliveryStatus d !!! c)]>
                   (deliveryStatus d)) !!! c'))) as Heq.
  { destruct (decide (c = c')) as [->|Hne].
    - rewrite lookup_insert_same. destruct c'; simpl; try done; by eexists.
    - by rewrite lookup_insert_other. }
  by destruct (decide _).
Qed.

Lemma keepsErrors_readDoc n now d : keepsErrors n d -> keepsErrors n (readDoc now d).
Proof. intros H c' Hc'. specialize (H c' Hc'). by destruct c'. Qed.

Lemma noInAppError_sentDoc now c d : noInAppError d -> noInAppError (sentDoc now c d).
Proof.
  unfold noInAppError, sentDoc. intros H. simpl.
  destruct (decide _); simpl; by destruct c.
Qed.

Lemma noInAppError_failedDoc c msg d : noInAppError d -> noInAppError (failedDoc c msg d).
Proof.
  unfold noInAppError, failedDoc. intros H. simpl.
  destruct (decide _); simpl; by destruct c.
Qed.

(** X8: markAsFailed records the message on the telegram, email or push
    entry; the inApp entry has no error path, so a failed in-app attempt
    leaves no message (an in-app entry never carries one).  No operation
    of the service erases a recorded error: markAsSent leaves it in place,
    so a channel that is delivered in a later round still carries the error
    of its earlier attempt. *)
Theorem errors_are_kept n n' :
  rtc step n n' ->
  keepsErrors n n' /\
  (noInAppError n -> noInAppError n') /\
  (forall env c msg,
     error (deliveryStatus (doc (snd (markAsFailed env c msg (load n')))) !!! c) =
     match c with
     | Channel.inApp => error (deliveryStatus n' !!! Channel.inApp)
     | _ => Some msg
     end).
Proof.
  intros Hsteps. split; [|split].
  - apply (steps_both (keepsErrors n) n n'); [| | | | | |done|by intros c].
    + intros env p d H. unfold preSave. by destruct (_ && _).
    + apply keepsErrors_sentDoc.
    + apply keepsErrors_failedDoc.
    + by intros s d _.
    + by intros now d.
    + apply keepsErrors_readDoc.
  - apply (steps_both noInAppError n n'); [| | | | | |done].
    + intros env p d H. unfold preSave. by destruct (_ && _).
    + apply noInAppError_sentDoc.
    + apply noInAppError_failedDoc.
    + by intros s d _.
    + by intros now d.
    + by intros now d.
  - intros env c msg. rewrite markAsFailed_eq, save_doc. simpl.
    destruct (preSave_fields env n' (failedDoc c msg n')) as (_ & -> & _).
    unfold failedDoc. simpl. destruct (decide _); simpl; by destruct c.
Qed.

Lemma errors_are_kept_witness :
  let failedOnce := roundOf telegramDown welcome in
  let delivered := roundOf allOk failedOnce in
  status delivered = Status.sent /\
  error (deliveryStatus delivered !!! Channel.telegram) = Some "ETELEGRAM" /\
  keepsErrors failedOnce delivered /\
  noInAppError delivered.
Proof.
  split; [reflexivity|]. split; [reflexivity|].
  destruct (errors_are_kept (roundOf telegramDown welcome)
              (roundOf allOk (roundOf telegramDown welcome)))
    as (Hkeep & Hin & _).
  - apply rtc_once. eapply step_dispatch; [done|]. by right.
  - split; [exact Hkeep|]. apply Hin. reflexivity.
Defined.

(** ** Selection and order of the pending queue *)

Lemma sortBefore_same_priority a b :
  sortBefore a b -> priority a = priority b -> (scheduledAt a <= scheduledAt b)%Z.
Proof.
  unfold sortBefore. intros H Hp. rewrite Hp in H. by destruct (priority b).
Qed.

Lemma sortBefore_urgent a b :
  sortBefore a b -> priority b = Priority.urgent -> priority a = Priority.urgent.
Proof.
  unfold sortBefore. intros H Hp. rewrite Hp in H. by destruct (priority a).
Qed.

(** X9: findPending returns each pending and due record of the collection
    exactly once (it is a permutation of them); records of equal priority
    are in ascending order of scheduledAt; and the records of priority
    urgent come before all the others. *)
Theorem findPending_selection_order now coll :
  findPending now coll ≡ₚ filter (due now) coll /\
  (forall i j a b,
     findPending now coll !! i = Some a -> findPending now coll !! j = Some b ->
     i < j ->
     (priority a = priority b -> (scheduledAt a <= scheduledAt b)%Z) /\
     (priority b = Priority.urgent -> priority a = Priority.urgent)).
Proof.
  split; [apply merge_sort_Permutation|].
  intros i j a b Hi Hj Hlt.
  assert (sortBefore a b) as Hab.
  { by eapply (StronglySorted_lookup _ _ i j), Hlt; [apply findPending_sorted|..]. }
  split; [by apply sortBefore_same_priority|by apply sortBefore_urgent].
Qed.

(** ** What a sweep hands to the dispatcher *)

Lemma sweepLoop_prefix envs k l :
  (dispatched (sweepLoop envs k l)).*1 `prefix_of` l.
Proof.
  revert k. induction l as [|n l IH]; intros k; [done|].
  simpl. destruct (sendNotification (envs k) (load n)) as [[b|msg] w]; simpl.
  - apply prefix_cons, IH.
  - apply prefix_cons, prefix_nil.
Qed.

Lemma sweepLoop_worlds envs k l :
  Forall (fun '(n, w) => exists j, w = snd (sendNotification (envs j) (load n)))
    (dispatched (sweepLoop envs k l)).
Proof.
  revert k. induction l as [|n l IH]; intros k; [by constructor|].
  simpl. destruct (sendNotification (envs k) (load n)) as [[b|msg] w] eqn:E; simpl.
  - constructor; [|apply IH]. exists k. by rewrite E.
  - constructor; [|by constructor]. exists k. by rewrite E.
Qed.

(** X10: a sweep hands to the dispatcher only records of the collection
    that are pending and due, in the order of findPending and without
    skipping any (the handed records are a prefix of its result), each
    with one run of sendNotification; when the findPending query itself is
    rejected, the sweep hands over nothing and logs the error. *)
Theorem sweep_dispatches_due_prefix findErr envs now coll :
  let s := processPendingNotifications findErr envs now coll in
  (dispatched s).*1 `prefix_of` findPending now coll /\
  (forall n, n ∈ (dispatched s).*1 -> n ∈ coll /\ due now n) /\
  Forall (fun '(n, w) => exists j, w = snd (sendNotification (envs j) (load n)))
    (dispatched s) /\
  (forall msg, findErr = Some msg -> dispatched s = [] /\ logged s = Some msg).
Proof.
  simpl.
  assert ((dispatched (processPendingNotifications findErr envs now coll)).*1
            `prefix_of` findPending now coll) as Hpre.
  { destruct findErr; simpl; [apply prefix_nil|apply sweepLoop_prefix]. }
  split; [done|]. split; [|split].
  - intros n Hn. destruct Hpre as [rest Hrest].
    assert (n ∈ findPending now coll) as Hin.
    { rewrite Hrest. apply elem_of_app. by left. }
    apply findPending_elem in Hin. unfold due. tauto.
  - destruct findErr; simpl; [by constructor|apply sweepLoop_worlds].
  - by intros msg ->.
Qed.

(** * The other queries of the notification model *)

#[global] Instance newerFirst_total : Total newerFirst.
Proof. intros a b. unfold newerFirst. lia. Qed.

#[global] Instance newerFirst_trans : Transitive newerFirst.
Proof. intros a b c. unfold newerFirst. lia. Qed.

(** ** The first [k] of a sorted list *)

Section TopOfSorted.
Context {A : Type} (R : relation A).
Context `{!forall x y, Decision (R x y)} `{!Total R} `{!Transitive R}.

Lemma limitTo_split k (l : list A) : exists rest, l = limitTo k l ++ rest.
Proof.
  destruct k as [|k]; simpl.
  - exists []. by rewrite app_nil_r.
  - exists (drop (S k) l). by rewrite take_drop.
Qed.

Lemma limitTo_length k (l : list A) : 0 < k -> length (limitTo k l) <= k.
Proof. destruct k as [|k]; [lia|]. intros _. simpl. rewrite length_take. lia. Qed.

(** The rows kept by a limit on a sorted list come before the rows it
    leaves out, and both together are the list that was sorted. *)
Lemma limit_of_sorted k (l : list A) :
  exists rest,
    limitTo k (merge_sort R l) ++ rest ≡ₚ l /\
    StronglySorted R (limitTo k (merge_sort R l)) /\
    forall x y, x ∈ limitTo k (merge_sort R l) -> y ∈ rest -> R x y.
Proof.
  destruct (limitTo_split k (merge_sort R l)) as [rest Hrest].
  pose proof (StronglySorted_merge_sort R l) as Hs.
  rewrite Hrest in Hs. apply StronglySorted_app in Hs as (Hcross & Hs1 & _).
  exists rest. split; [|split; [done|]].
  - by rewrite <- Hrest, merge_sort_Permutation.
  - intros x y Hx Hy. by apply Hcross.
Qed.
End TopOfSorted.

(** ** Notifications of a user *)

(** X11: findByUser returns rows of the collection that belong to the
    user, newest first, at most [limit] of them when the limit is positive,
    and they are the newest: together with the rows left out they are all
    the rows of the user, and no row left out was created after a returned
    one. *)
Theorem findByUser_newest uid limit coll :
  exists rest,
    findByUser uid limit coll ++ rest ≡ₚ
      filter (fun r => userId (document r) = uid) coll /\
    StronglySorted newerFirst (findByUser uid limit coll) /\
    (forall x y, x ∈ findByUser uid limit coll -> y ∈ rest ->
                 (createdAt y <= createdAt x)%Z) /\
    (0 < limit -> length (findByUser uid limit coll) <= limit) /\
    (forall r, r ∈ findByUser uid limit coll -> r ∈ coll /\ userId (document r) = uid).
Proof.
  unfold findByUser.
  set (mine := filter (fun r => userId (document r) = uid) coll).
  destruct (limit_of_sorted newerFirst limit mine) as (rest & Hperm & Hsorted & Hcross).
  exists rest. repeat split; try done.
  - by apply limitTo_length.
  - assert (r ∈ mine) as Hr.
    { rewrite <- Hperm. apply elem_of_app. by left. }
    by apply list_elem_of_filter in Hr as [_ ?].
  - assert (r ∈ mine) as Hr.
    { rewrite <- Hperm. apply elem_of_app. by left. }
    by apply list_elem_of_filter in Hr as [? _].
Qed.

Lemma findUnreadByUser_elem uid coll r :
  r ∈ findUnreadByUser uid coll <->
  r ∈ coll /\ userId (document r) = uid /\ isRead (document r) = false.
Proof.
  unfold findUnreadByUser. rewrite merge_sort_Permutation, list_elem_of_filter.
  unfold isRead. rewrite bool_decide_eq_false, <- eq_None_not_Some. tauto.
Qed.

(** X12: findUnreadByUser returns exactly the rows of the user that have
    no readAt, newest first; markAsRead sets readAt (and the readAt of the
    inApp entry) and nothing that dispatching reads, so the document it
    leaves is in no unread list, while it is selected by findPending
    exactly when it was before. *)
Theorem markAsRead_leaves_unread_list env n :
  let w := snd (markAsRead env (load n)) in
  isRead (doc w) = true /\
  chReadAt (deliveryStatus (doc w) !!! Channel.inApp) = Some (clock env) /\
  stored w = (if saveOk env 0 then doc w else n) /\
  (forall now, due now (doc w) <-> due now n) /\
  retryCount (doc w) = retryCount n /\
  (forall c, sent (deliveryStatus (doc w) !!! c) = sent (deliveryStatus n !!! c)) /\
  (forall uid coll,
     StronglySorted newerFirst (findUnreadByUser uid coll) /\
     (forall r, r ∈ findUnreadByUser uid coll <->
                r ∈ coll /\ userId (document r) = uid /\ isRead (document r) = false) /\
     (forall r, r ∈ findUnreadByUser uid coll -> document r <> doc w)).
Proof.
  simpl. rewrite markAsRead_eq, save_doc, save_stored. simpl.
  set (d := set_deliveryStatus _ _).
  assert (isRead d = true /\ status d = status n /\ scheduledAt d = scheduledAt n /\
          retryCount d = retryCount n /\
          chReadAt (deliveryStatus d !!! Channel.inApp) = Some (clock env) /\
          (forall c, sent (deliveryStatus d !!! c) = sent (deliveryStatus n !!! c)))
    as (Hread & Hst & Hsch & Hrc & Hin & Hfl).
  { repeat split; try done. by intros []. }
  assert (preSave env n d = d /\ status d = status n) as [Hpre _].
  { split; [|done]. unfold preSave.
    rewrite (bool_decide_eq_false_2 (status d <> status n)); [done|].
    intros Hne. by apply Hne. }
  rewrite Hpre.
  split; [done|]. split; [done|]. split; [done|].
  split; [intros now; unfold due; by rewrite Hst, Hsch|].
  split; [done|]. split; [done|].
  intros uid coll. split; [apply StronglySorted_merge_sort; apply _|].
  split; [intros r; apply findUnreadByUser_elem|].
  intros r Hr%findUnreadByUser_elem Heq. destruct Hr as (_ & _ & Hunread).
  rewrite Heq in Hunread. congruence.
Qed.

(** ** Retention *)

Lemma cleanupOld_kept cutoff coll r :
  r ∈ (cleanupOld cutoff coll).1 <-> r ∈ coll /\ ~ expired cutoff r.
Proof. unfold cleanupOld. simpl. rewrite list_elem_of_filter. tauto. Qed.

(** X13: cleanupOld deletes exactly the rows created before the cutoff
    whose status is sent, failed or cancelled, and reports their number;
    the other rows stay, in their order.  Whatever their age, pending and
    sending records are never deleted. *)
Theorem cleanupOld_keeps_live_records cutoff coll :
  let rest := (cleanupOld cutoff coll).1 in
  let deletedCount := (cleanupOld cutoff coll).2 in
  deletedCount + length rest = length coll /\
  rest `sublist_of` coll /\
  (forall r, r ∈ rest <-> r ∈ coll /\ ~ expired cutoff r) /\
  (forall r, r ∈ coll -> (cutoff <= createdAt r)%Z -> r ∈ rest) /\
  (forall r, r ∈ coll ->
     status (document r) = Status.pending \/ status (document r) = Status.sending ->
     r ∈ rest).
Proof.
  simpl. split; [|split; [|split; [|split]]].
  - induction coll as [|r coll IH]; [done|].
    rewrite !filter_cons. destruct (decide (expired cutoff r)) as [He|He].
    + rewrite decide_False by tauto. simpl in *. lia.
    + rewrite decide_True by done. simpl in *. lia.
  - apply sublist_filter.
  - intros r. apply cleanupOld_kept.
  - intros r Hr Hnew. apply cleanupOld_kept. split; [done|]. intros [Hold _]. lia.
  - intros r Hr Hst. apply cleanupOld_kept. split; [done|]. intros [_ Hterm].
    destruct Hst as [Hst|Hst]; rewrite Hst in Hterm;
      repeat (apply elem_of_cons in Hterm as [Hterm|Hterm]; [discriminate|]);
      by apply elem_of_nil in Hterm.
Qed.

(** ** A record that stays sending *)

Lemma permute_singleton {A} code (x : A) : permute code [x] = [x].
Proof. destruct code as [|k code]; [done|]. simpl. by destruct code, k. Qed.

(** X14: a round of a record whose only enabled channel is email, for a
    user who is not found or has switched email off, leaves the stored
    record as the claim step wrote it, with status sending; from then on no
    sweep selects it (findPending returns pending records only) and
    cleanupOld never deletes it, however old it gets. *)
Theorem skipped_email_record_is_stuck env n :
  channels n = mkPerChannel false true false false ->
  emailSkipped env = true -> saveOk env 0 = true ->
  let d := roundOf env n in
  d = set_status Status.sending n /\
  (forall now coll, d ∉ findPending now coll) /\
  (forall cutoff t coll, mkRow t d ∈ coll -> mkRow t d ∈ (cleanupOld cutoff coll).1).
Proof.
  intros Hch Hskip Hok. simpl.
  assert (roundOf env n = set_status Status.sending n) as Hd.
  { unfold roundOf. rewrite sendNotification_eq, claim_load. simpl. rewrite Hok. simpl.
    assert (started n = [Channel.email]) as ->.
    { unfold started. by rewrite Hch. }
    rewrite permute_singleton. simpl.
    by rewrite sendEmailNotification_skipped. }
  rewrite Hd. split; [done|]. split.
  - intros now coll Hin%findPending_elem. by destruct Hin as (_ & Hst & _).
  - intros cutoff t coll Hin.
    apply cleanupOld_kept. split; [done|]. intros [_ Hterm]. simpl in Hterm.
    repeat (apply elem_of_cons in Hterm as [Hterm|Hterm]; [discriminate|]).
    by apply elem_of_nil in Hterm.
Qed.

Lemma skipped_email_record_is_stuck_witness :
  let d := roundOf optedOut emailOnly in
  d = set_status Status.sending emailOnly /\
  (forall now coll, d ∉ findPending now coll) /\
  (forall cutoff t coll, mkRow t d ∈ coll -> mkRow t d ∈ (cleanupOld cutoff coll).1).
Proof. by apply (skipped_email_record_is_stuck optedOut emailOnly). Defined.

(** * The podcast model *)

#[global] Instance newestFirst_total : Total Podcast.newestFirst.
Proof.
  intros a b. unfold Podcast.newestFirst.
  destruct (Podcast.publishedAt a), (Podcast.publishedAt b); auto. lia.
Qed.

#[global] Instance newestFirst_trans : Transitive Podcast.newestFirst.
Proof.
  intros a b c. unfold Podcast.newestFirst.
  destruct (Podcast.publishedAt a), (Podcast.publishedAt b), (Podcast.publishedAt c);
    auto; try tauto; lia.
Qed.

#[global] Instance mostListenedFirst_total : Total Podcast.mostListenedFirst.
Proof. intros a b. unfold Podcast.mostListenedFirst. lia. Qed.

#[global] Instance mostListenedFirst_trans : Transitive Podcast.mostListenedFirst.
Proof. intros a b c. unfold Podcast.mostListenedFirst. lia. Qed.

Lemma visible_isPublished now p : Podcast.visible now p <-> Podcast.isPublished now p = true.
Proof.
  unfold Podcast.visible, Podcast.isPublished.
  rewrite andb_true_iff, bool_decide_eq_true.
  destruct (Podcast.publishedAt p) as [d|].
  - rewrite bool_decide_eq_true. split.
    + by intros [Hs (d' & [= <-] & Hle)].
    + intros [Hs Hle]. split; [done|]. by exists d.
  - split; [by intros [_ (d & Hd & _)]|by intros [_ ?]].
Qed.

(** ** Publication and the queries *)

(** X15: findPublished returns exactly the podcasts of the collection
    for which the virtual field isPublished holds (status published and a
    publishedAt that is not in the future), each once, newest first;
    findByCategory returns those of them that have the category. *)
Theorem findPublished_isPublished now coll :
  (forall p, p ∈ Podcast.findPublished now coll <->
             p ∈ coll /\ Podcast.isPublished now p = true) /\
  Podcast.findPublished now coll ≡ₚ filter (Podcast.visible now) coll /\
  StronglySorted Podcast.newestFirst (Podcast.findPublished now coll) /\
  (forall cat p, p ∈ Podcast.findByCategory now cat coll <->
                 p ∈ Podcast.findPublished now coll /\ Podcast.category p = cat).
Proof.
  unfold Podcast.findPublished, Podcast.findByCategory.
  split; [|split; [|split]].
  - intros p. rewrite merge_sort_Permutation, list_elem_of_filter, visible_isPublished.
    tauto.
  - apply merge_sort_Permutation.
  - apply StronglySorted_merge_sort; apply _.
  - intros cat p. rewrite !merge_sort_Permutation, !list_elem_of_filter. tauto.
Qed.

Lemma preSave_status now persisted p :
  Podcast.status (Podcast.preSave now persisted p) = Podcast.status p.
Proof. unfold Podcast.preSave. by destruct (_ && _). Qed.

Lemma preSave_dated now persisted p d :
  Podcast.publishedAt p = Some d -> Podcast.preSave now persisted p = p.
Proof.
  intros Hd. unfold Podcast.preSave.
  rewrite (bool_decide_eq_false_2 (Podcast.publishedAt p = None)) by congruence.
  by rewrite andb_false_r.
Qed.

Lemma preSave_not_published now persisted p :
  Podcast.status p <> Podcast.published -> Podcast.preSave now persisted p = p.
Proof.
  intros Hs. unfold Podcast.preSave.
  rewrite (bool_decide_eq_false_2 (Podcast.status p = Podcast.published)) by done.
  by rewrite andb_false_r.
Qed.

(** X16: publish() makes the podcast published as of the current time,
    overwriting an earlier publishedAt: from then on isPublished holds and
    findPublished returns it.  archive() takes it out of findPublished,
    findByCategory, findPopular and findRecent at every time, with its
    publishedAt left in place. *)
Theorem publish_and_archive now p :
  (Podcast.publishedAt (Podcast.publish now p) = Some now /\
   forall now' coll, (now <= now')%Z ->
     Podcast.isPublished now' (Podcast.publish now p) = true /\
     (Podcast.publish now p ∈ coll ->
      Podcast.publish now p ∈ Podcast.findPublished now' coll)) /\
  (Podcast.publishedAt (Podcast.archive now p) = Podcast.publishedAt p /\
   forall now' coll cat k,
     Podcast.isPublished now' (Podcast.archive now p) = false /\
     (Podcast.archive now p ∉ Podcast.findPublished now' coll) /\
     (Podcast.archive now p ∉ Podcast.findByCategory now' cat coll) /\
     (Podcast.archive now p ∉ Podcast.findPopular now' k coll) /\
     Podcast.archive now p ∉ Podcast.findRecent now' k coll).
Proof.
  assert (Podcast.publish now p =
          Podcast.set_publishedAt now (Podcast.set_status Podcast.published p)) as Hpub.
  { unfold Podcast.publish. by apply (preSave_dated _ _ _ now). }
  assert (Podcast.archive now p = Podcast.set_status Podcast.archived p) as Harch.
  { unfold Podcast.archive. by apply preSave_not_published. }
  split.
  - rewrite Hpub. split; [done|]. intros now' coll Hle.
    assert (Podcast.isPublished now'
              (Podcast.set_publishedAt now (Podcast.set_status Podcast.published p)) = true)
      as Hvis.
    { unfold Podcast.isPublished. simpl. by rewrite bool_decide_eq_true_2. }
    split; [done|]. intros Hin.
    unfold Podcast.findPublished.
    rewrite merge_sort_Permutation, list_elem_of_filter, visible_isPublished. done.
  - rewrite Harch. split; [done|]. intros now' coll cat k.
    assert (~ Podcast.visible now' (Podcast.set_status Podcast.archived p)) as Hhid.
    { by intros [Hs _]. }
    split; [|split; [|split; [|split]]].
    + destruct (Podcast.isPublished now' _) eqn:E; [|done].
      by apply visible_isPublished in E.
    + unfold Podcast.findPublished.
      rewrite merge_sort_Permutation, list_elem_of_filter. tauto.
    + unfold Podcast.findByCategory.
      rewrite merge_sort_Permutation, list_elem_of_filter. tauto.
    + unfold Podcast.findPopular. intros Hin.
      destruct (limitTo_split k
                  (merge_sort Podcast.mostListenedFirst
                     (filter (Podcast.visible now') coll))) as [rest Hrest].
      assert (Podcast.set_status Podcast.archived p ∈
                merge_sort Podcast.mostListenedFirst (filter (Podcast.visible now') coll))
        as Hin' by (rewrite Hrest; apply elem_of_app; by left).
      rewrite merge_sort_Permutation, list_elem_of_filter in Hin'. tauto.
    + unfold Podcast.findRecent. intros Hin.
      destruct (limitTo_split k
                  (merge_sort Podcast.newestFirst
                     (filter (Podcast.visible now') coll))) as [rest Hrest].
      assert (Podcast.set_status Podcast.archived p ∈
                merge_sort Podcast.newestFirst (filter (Podcast.visible now') coll))
        as Hin' by (rewrite Hrest; apply elem_of_app; by left).
      rewrite merge_sort_Permutation, list_elem_of_filter in Hin'. tauto.
Qed.

(** ** The most listened and the most recent *)

(** X17: findPopular returns published podcasts of the collection, at
    most [limit] of them when the limit is positive, ordered by listens and
    then views, both descending; together with the published podcasts it
    leaves out they are all the published ones, and none left out has more
    listens, or as many listens and more views, than a returned one. *)
Theorem findPopular_most_listened now limit coll :
  exists rest,
    Podcast.findPopular now limit coll ++ rest ≡ₚ filter (Podcast.visible now) coll /\
    StronglySorted Podcast.mostListenedFirst (Podcast.findPopular now limit coll) /\
    (forall x y, x ∈ Podcast.findPopular now limit coll -> y ∈ rest ->
       (Podcast.listens y <= Podcast.listens x)%Z /\
       (Podcast.listens y = Podcast.listens x ->
        (Podcast.views y <= Podcast.views x)%Z)) /\
    (0 < limit -> length (Podcast.findPopular now limit coll) <= limit).
Proof.
  unfold Podcast.findPopular.
  destruct (limit_of_sorted Podcast.mostListenedFirst limit
              (filter (Podcast.visible now) coll)) as (rest & Hperm & Hsorted & Hcross).
  exists rest. split; [done|]. split; [done|]. split.
  - intros x y Hx Hy. specialize (Hcross x y Hx Hy).
    unfold Podcast.mostListenedFirst in Hcross. lia.
  - by apply limitTo_length.
Qed.

(** X18: findRecent returns published podcasts of the collection, at most
    [limit] of them when the limit is positive, newest first, and they are
    the most recent: none of the published podcasts it leaves out was
    published after a returned one. *)
Theorem findRecent_most_recent now limit coll :
  exists rest,
    Podcast.findRecent now limit coll ++ rest ≡ₚ filter (Podcast.visible now) coll /\
    StronglySorted Podcast.newestFirst (Podcast.findRecent now limit coll) /\
    (forall x y dx dy,
       x ∈ Podcast.findRecent now limit coll -> y ∈ rest ->
       Podcast.publishedAt x = Some dx -> Podcast.publishedAt y = Some dy ->
       (dy <= dx)%Z) /\
    (0 < limit -> length (Podcast.findRecent now limit coll) <= limit).
Proof.
  unfold Podcast.findRecent.
  destruct (limit_of_sorted Podcast.newestFirst limit
              (filter (Podcast.visible now) coll)) as (rest & Hperm & Hsorted & Hcross).
  exists rest. split; [done|]. split; [done|]. split.
  - intros x y dx dy Hx Hy Hdx Hdy. specialize (Hcross x y Hx Hy).
    unfold Podcast.newestFirst in Hcross. by rewrite Hdx, Hdy in Hcross.
  - by apply limitTo_length.
Qed.

(** ** The formatted duration *)



(** ** The generated slug *)

Lemma isSeparator_dash : Slug.isSeparator Slug.dash = true.
Proof. reflexivity. Qed.

Lemma kept_not_separator c :
  Slug.isWord c || Slug.isSpace c || (c =? Slug.dash)%N = true ->
  Slug.isSeparator c = false -> Slug.isAlnum c = true.
Proof.
  unfold Slug.isWord, Slug.isSeparator.
  destruct (Slug.isAlnum c), (Slug.isSpace c), (c =? Slug.underscore)%N,
    (c =? Slug.dash)%N; simpl; congruence.
Qed.

Lemma collapseRuns_chars b s :
  Forall (fun c => Slug.isWord c || Slug.isSpace c || (c =? Slug.dash)%N = true) s ->
  Forall Slug.slugChar (Slug.collapseRuns b s).
Proof.
  revert b. induction s as [|c s IH]; intros b Hs; [constructor|].
  apply Forall_cons in Hs as [Hc Hs]. simpl.
  destruct (Slug.isSeparator c) eqn:Hsep.
  - destruct b; [by apply IH|]. constructor; [by right|by apply IH].
  - constructor; [|by apply IH]. left. by apply kept_not_separator.
Qed.

Lemma collapseRuns_head b s c s' :
  Slug.collapseRuns b s = c :: s' -> c = Slug.dash -> b = false.
Proof.
  revert b. induction s as [|x s IH]; intros b; [done|]. simpl.
  destruct (Slug.isSeparator x) eqn:Hsep.
  - destruct b; [apply IH|done].
  - intros [= <- _] ->. by rewrite isSeparator_dash in Hsep.
Qed.

Lemma collapseRuns_noDoubleDash b s : Slug.noDoubleDash (Slug.collapseRuns b s).
Proof.
  revert b. induction s as [|c s IH]; intros b; [done|]. simpl.
  destruct (Slug.isSeparator c) eqn:Hsep.
  - destruct b; [apply IH|].
    specialize (IH true). destruct (Slug.collapseRuns true s) as [|c' s'] eqn:E; [done|].
    split; [|done]. intros [_ ->]. by apply collapseRuns_head in E.
  - specialize (IH false). destruct (Slug.collapseRuns false s) as [|c' s'] eqn:E; [done|].
    split; [|done]. intros [-> _]. by rewrite isSeparator_dash in Hsep.
Qed.

Lemma dropDashes_suffix s : exists pre, s = pre ++ Slug.dropDashes s.
Proof.
  induction s as [|c s [pre IH]]; [by exists []|]. simpl.
  destruct (c =? Slug.dash)%N.
  - exists (c :: pre). simpl. by f_equal.
  - by exists [].
Qed.

Lemma dropDashes_head s : head (Slug.dropDashes s) <> Some Slug.dash.
Proof.
  induction s as [|c s IH]; [done|]. simpl.
  destruct (N.eqb_spec c Slug.dash) as [|Hne]; [done|]. simpl. congruence.
Qed.

Lemma dropTrailingDashes_prefix s : exists post, s = Slug.dropTrailingDashes s ++ post.
Proof.
  induction s as [|c s [post IH]]; [by exists []|]. simpl.
  destruct (Slug.dropTrailingDashes s) as [|c' t] eqn:E.
  - destruct (c =? Slug.dash)%N.
    + by exists (c :: s).
    + exists s. done.
  - exists post. simpl in *. by f_equal.
Qed.

Lemma dropTrailingDashes_last s : last (Slug.dropTrailingDashes s) <> Some Slug.dash.
Proof.
  induction s as [|c s IH]; [done|]. simpl.
  destruct (Slug.dropTrailingDashes s) as [|c' t] eqn:E.
  - destruct (N.eqb_spec c Slug.dash) as [|Hne]; [done|]. simpl. congruence.
  - done.
Qed.

Lemma noDoubleDash_app_l s t : Slug.noDoubleDash (s ++ t) -> Slug.noDoubleDash s.
Proof.
  induction s as [|c s IH]; [done|]. simpl.
  destruct s as [|c' s]; [done|]. simpl. intros [Hc Hs]. split; [done|]. by apply IH.
Qed.

Lemma noDoubleDash_app_r s t : Slug.noDoubleDash (s ++ t) -> Slug.noDoubleDash t.
Proof.
  induction s as [|c s IH]; [done|]. simpl.
  destruct (s ++ t) as [|c' u] eqn:E.
  - intros _. apply app_eq_nil in E as [_ ->]. done.
  - intros [_ Hs]. by apply IH.
Qed.

Section SlugShape.
Variable toLowerCase : Slug.jsString -> Slug.jsString.
Variable stamp : Slug.jsString.

Lemma slugBody_shape title :
  let body := Slug.slugBody toLowerCase title in
  Forall Slug.slugChar body /\ Slug.noDoubleDash body /\
  head body <> Some Slug.dash /\ last body <> Some Slug.dash.
Proof.
  simpl. unfold Slug.slugBody, Slug.trimDashes.
  set (kept := Slug.dropOthers (toLowerCase title)).
  set (runs := Slug.collapseRuns false kept).
  assert (Forall Slug.slugChar runs) as Hchars.
  { apply collapseRuns_chars. unfold kept, Slug.dropOthers.
    apply Forall_forall. intros c Hc. by apply list_elem_of_filter in Hc as [? _]. }
  pose proof (collapseRuns_noDoubleDash false kept) as Hnd. fold runs in Hnd.
  destruct (dropDashes_suffix runs) as [pre Hpre].
  destruct (dropTrailingDashes_prefix (Slug.dropDashes runs)) as [post Hpost].
  rewrite Hpre in Hchars, Hnd.
  apply Forall_app in Hchars as [_ Hchars]. apply noDoubleDash_app_r in Hnd.
  rewrite Hpost in Hchars, Hnd.
  apply Forall_app in Hchars as [Hchars _]. apply noDoubleDash_app_l in Hnd.
  split; [done|]. split; [done|]. split; [|apply dropTrailingDashes_last].
  pose proof (dropDashes_head runs) as Hhead.
  rewrite Hpost in Hhead.
  by destruct (Slug.dropTrailingDashes (Slug.dropDashes runs)).
Qed.

(** X20: when the podcast has no slug yet (none, or an empty one),
    generateSlug stores and returns a body, a dash and the time stamp; the
    body consists of ASCII letters, digits and dashes only, with no dash at
    its start or end and no two dashes in a row. *)
Theorem generateSlug_shape title :
  let body := Slug.slugBody toLowerCase title in
  Slug.generateSlug toLowerCase stamp title None =
    (body ++ Slug.dash :: stamp, Some (body ++ Slug.dash :: stamp)) /\
  Slug.generateSlug toLowerCase stamp title (Some []) =
    (body ++ Slug.dash :: stamp, Some (body ++ Slug.dash :: stamp)) /\
  Forall Slug.slugChar body /\ Slug.noDoubleDash body /\
  head body <> Some Slug.dash /\ last body <> Some Slug.dash.
Proof. simpl. split; [done|]. split; [done|]. apply slugBody_shape. Qed.

Lemma collapseRuns_separators b s :
  Forall (fun c => Slug.isSeparator c = true) s ->
  Slug.collapseRuns b s = [] \/ Slug.collapseRuns b s = [Slug.dash].
Proof.
  revert b. induction s as [|c s IH]; intros b Hs; [by left|].
  apply Forall_cons in Hs as [Hc Hs]. simpl. rewrite Hc.
  destruct b; [by apply IH|]. right.
  destruct (IH true Hs) as [->|Habs]; [done|].
  by apply (collapseRuns_head true s Slug.dash []) in Habs.
Qed.

(** X21: a title in which toLowerCase leaves no ASCII letter or digit (a
    title written in Cyrillic, say) has an empty slug body, so its slug is
    a dash followed by the time stamp; and once a podcast has a slug,
    generateSlug returns that slug and leaves it in place, whatever the
    title and the time. *)
Theorem generateSlug_without_ascii_and_again title slug :
  (Forall (fun c => Slug.isAlnum c = false) (toLowerCase title) ->
   Slug.generateSlug toLowerCase stamp title None =
     (Slug.dash :: stamp, Some (Slug.dash :: stamp))) /\
  (let '(first, stored) := Slug.generateSlug toLowerCase stamp title slug in
   forall lower' stamp' title',
     Slug.generateSlug lower' stamp' title' stored = (first, stored)).
Proof.
  split.
  - intros Hnone. simpl.
    assert (Slug.slugBody toLowerCase title = []) as ->; [|done].
    unfold Slug.slugBody, Slug.trimDashes.
    destruct (collapseRuns_separators false (Slug.dropOthers (toLowerCase title)))
      as [-> | ->]; [|done|done].
    unfold Slug.dropOthers. apply Forall_forall. intros c Hc.
    apply list_elem_of_filter in Hc as [Hkept Hin].
    rewrite Forall_forall in Hnone. specialize (Hnone c Hin).
    destruct (Slug.isSeparator c) eqn:Hsep; [done|].
    pose proof (kept_not_separator c Hkept Hsep). congruence.
  - destruct slug as [[|c s]|]; simpl.
    + intros lower' stamp' title'.
      by destruct (Slug.slugBody toLowerCase title).
    + done.
    + intros lower' stamp' title'.
      by destruct (Slug.slugBody toLowerCase title).
Qed.
End SlugShape.

Lemma generateSlug_without_ascii_witness :
  Slug.generateSlug (fun s => s) [49%N; 97%N] [1087%N; 1088%N; 32%N; 1080%N] None =
    (Slug.dash :: [49%N; 97%N], Some (Slug.dash :: [49%N; 97%N])).
Proof.
  apply (generateSlug_without_ascii_and_again (fun s => s) [49%N; 97%N]
           [1087%N; 1088%N; 32%N; 1080%N] None).
  repeat constructor.
Defined.

(** ** Counting calls *)

Lemma round_exact z : (Z.abs z <= JsNumber.limit)%Z -> JsNumber.round z = z.
Proof. intros H. unfold JsNumber.round. by rewrite (proj2 (Z.leb_le _ _) H). Qed.

Lemma add_exact a b :
  (0 <= a)%Z -> (0 <= b)%Z -> (a + b <= JsNumber.limit)%Z -> JsNumber.add a b = (a + b)%Z.
Proof. intros Ha Hb Hab. unfold JsNumber.add. apply round_exact. lia. Qed.







(** * The user model *)

Lemma account_preSave_same now u v :
  Account.endDate v = Account.endDate u -> Account.preSave now u v = v.
Proof.
  intros He. unfold Account.preSave.
  rewrite bool_decide_eq_false_2; [done|]. intros Hne. by apply Hne.
Qed.

(** ** Purchases and access *)




(** ** The free podcast *)



(** ** Listening statistics *)

Lemma listenAgain_None now pid listenTime stats :
  Account.listenAgain now pid listenTime stats = None <->
  pid ∉ Account.listenedId <$> stats.
Proof.
  induction stats as [|s stats IH]; simpl.
  - split; [|done]. intros _ H. by apply elem_of_nil in H.
  - destruct (decide (Account.listenedId s = pid)) as [Heq|Hne].
    + rewrite bool_decide_eq_true_2 by done. split; [done|].
      intros H. destruct H. rewrite Heq. by left.
    + rewrite bool_decide_eq_false_2 by done.
      rewrite fmap_None, IH, not_elem_of_cons. split; [by intros ?|tauto].
Qed.

(** The entries keep their podcasts, in order, whatever the numbers are. *)
Lemma listenAgain_ids now pid listenTime stats stats' :
  Account.listenAgain now pid listenTime stats = Some stats' ->
  Account.listenedId <$> stats' = Account.listenedId <$> stats.
Proof.
  revert stats'. induction stats as [|s stats IH]; intros stats'; simpl; [done|].
  destruct (bool_decide (Account.listenedId s = pid)).
  - by intros [= <-].
  - destruct (Account.listenAgain now pid listenTime stats) as [rest|]; [|done].
    simpl. intros [= <-]. rewrite !fmap_cons. by rewrite (IH rest eq_refl).
Qed.

Lemma sums_nonneg stats :
  Forall (fun s => (0 <= Account.listenCount s)%Z /\ (0 <= Account.listenedTime s)%Z) stats ->
  (0 <= Account.sumCounts stats)%Z /\ (0 <= Account.sumTimes stats)%Z.
Proof. induction 1 as [|s stats [? ?] _ [? ?]]; simpl; lia. Qed.

Lemma listenAgain_Some now pid listenTime stats stats' :
  Forall (fun s => (0 <= Account.listenCount s)%Z /\ (0 <= Account.listenedTime s)%Z) stats ->
  (0 <= listenTime)%Z ->
  (Account.sumTimes stats + listenTime <= JsNumber.limit)%Z ->
  (Account.sumCounts stats + 1 <= JsNumber.limit)%Z ->
  Account.listenAgain now pid listenTime stats = Some stats' ->
  Forall (fun s => (0 <= Account.listenCount s)%Z /\ (0 <= Account.listenedTime s)%Z) stats' /\
  Account.sumTimes stats' = (Account.sumTimes stats + listenTime)%Z /\
  Account.sumCounts stats' = (Account.sumCounts stats + 1)%Z.
Proof.
  intros Hwhole Hpos. revert stats'.
  induction Hwhole as [|s stats [Hc Ht] Hrest IH]; intros stats' Htimes Hcounts; simpl; [done|].
  simpl in Htimes, Hcounts. destruct (sums_nonneg stats Hrest) as [Hsc Hst].
  destruct (bool_decide (Account.listenedId s = pid)).
  - intros [= <-]. simpl. rewrite !add_exact by lia.
    split; [|lia]. constructor; [simpl; lia|done].
  - destruct (Account.listenAgain now pid listenTime stats) as [rest|]; [|done].
    simpl. intros [= <-].
    destruct (IH rest) as (Hw & Hts & Hcs); [lia|lia|done|].
    simpl. rewrite Hts, Hcs. split; [|lia]. by constructor.
Qed.

Lemma sumTimes_app s t : Account.sumTimes (s ++ t) = (Account.sumTimes s + Account.sumTimes t)%Z.
Proof. induction s as [|x s IH]; simpl; [done|]. rewrite IH. lia. Qed.

Lemma sumCounts_app s t :
  Account.sumCounts (s ++ t) = (Account.sumCounts s + Account.sumCounts t)%Z.
Proof. induction s as [|x s IH]; simpl; [done|]. rewrite IH. lia. Qed.

(** X25: updateListeningStats keeps one entry per podcast: it adds an
    entry exactly when the podcast had none, and sets lastSeen to the
    current time.  For listen times and statistics that are whole and not
    negative, and as long as the total time and the listen counts stay
    within 2^53, it keeps the total time equal to the sum of the times of
    the entries, adding the listen time to the total and one to the listen
    counts. *)
Theorem updateListeningStats_keeps_consistent now pid listenTime u :
  NoDup (Account.listenedId <$> Account.podcastsListened u) ->
  let u' := Account.updateListeningStats now pid listenTime u in
  (NoDup (Account.listenedId <$> Account.podcastsListened u') /\
   pid ∈ Account.listenedId <$> Account.podcastsListened u' /\
   length (Account.podcastsListened u') =
     (if bool_decide (pid ∈ Account.listenedId <$> Account.podcastsListened u)
      then length (Account.podcastsListened u)
      else S (length (Account.podcastsListened u))) /\
   Account.lastSeen u' = now) /\
  (Account.consistentStats u -> Account.wholeStats u ->
   (0 <= listenTime)%Z ->
   (Account.totalTime u + listenTime <= JsNumber.limit)%Z ->
   (Account.sumCounts (Account.podcastsListened u) + 1 <= JsNumber.limit)%Z ->
   Account.consistentStats u' /\ Account.wholeStats u' /\
   Account.totalTime u' = (Account.totalTime u + listenTime)%Z /\
   Account.sumCounts (Account.podcastsListened u') =
     (Account.sumCounts (Account.podcastsListened u) + 1)%Z).
Proof.
  intros Hnd. simpl. unfold Account.updateListeningStats.
  rewrite account_preSave_same by done.
  unfold Account.consistentStats, Account.wholeStats. simpl.
  destruct (Account.listenAgain now pid listenTime (Account.podcastsListened u))
    as [stats|] eqn:E.
  - pose proof (listenAgain_ids _ _ _ _ _ E) as Hids.
    assert (pid ∈ Account.listenedId <$> Account.podcastsListened u) as Hin.
    { destruct (decide (pid ∈ Account.listenedId <$> Account.podcastsListened u))
        as [|Hnot]; [done|].
      apply (listenAgain_None now pid listenTime) in Hnot. congruence. }
    rewrite bool_decide_eq_true_2 by done. rewrite Hids. split.
    + repeat split; try done.
      by rewrite <- (length_fmap Account.listenedId), Hids, length_fmap.
    + intros [_ Htot] [Hpos Hwhole] Hlt Htime Hcount.
      destruct (listenAgain_Some now pid listenTime _ stats Hwhole Hlt) as (Hw & Ht & Hc);
        [lia|done|done|].
      rewrite add_exact by lia. rewrite Ht, Hc, Htot. repeat split; try done; lia.
  - apply listenAgain_None in E.
    rewrite bool_decide_eq_false_2 by done.
    rewrite fmap_app, sumTimes_app, sumCounts_app, length_app. simpl. split.
    + repeat split; try lia.
      * apply NoDup_app. split; [done|]. split; [|apply NoDup_singleton].
        intros x Hx Hx'. apply list_elem_of_singleton in Hx'. by subst.
      * apply elem_of_app. right. by left.
    + intros [_ Htot] [Hpos Hwhole] Hlt Htime Hcount.
      rewrite add_exact by lia. rewrite Htot. repeat split; try lia.
      * apply NoDup_app. split; [done|]. split; [|apply NoDup_singleton].
        intros x Hx Hx'. apply list_elem_of_singleton in Hx'. by subst.
      * apply Forall_app. split; [done|]. constructor; [simpl; lia|done].
Qed.

Lemma updateListeningStats_keeps_consistent_witness :
  let u := Account.mkAccount false None [] None 0 [] 0 in
  let u' := Account.updateListeningStats 9 3 120 (Account.updateListeningStats 5 3 60 u) in
  Account.consistentStats u' /\
  Account.totalTime u' = 180%Z /\
  Account.podcastsListened u' = [Account.mkListened 3 2 180 9].
Proof.
  split; [|split; reflexivity].
  destruct (updateListeningStats_keeps_consistent 9 3 120
              (Account.updateListeningStats 5 3 60 (Account.mkAccount false None [] None 0 [] 0)))
    as (_ & Hstats).
  - vm_compute. repeat constructor. intros H. inversion H.
  - apply Hstats.
    + split; [|reflexivity]. vm_compute. repeat constructor. intros H. inversion H.
    + split; [vm_compute; discriminate|]. vm_compute. repeat constructor; discriminate.
    + lia.
    + vm_compute. discriminate.
    + vm_compute. discriminate.
Defined.
